(** * translate.py: tag-safe, cached, retrying translation of JSON documents

    A shallow embedding of [src/translation/translate.py] and the
    properties of its translation pipeline.

    Conventions of the embedding.
    - A Python [str] is a [list ascii]: one [ascii] per character, so the
      development speaks about texts whose code points are below 256.
      The regular-expression classes are the ones Python's [re] uses for
      [str] patterns, restricted to that range.
    - [TranslatorService] is the record [Translator]; its methods take the
      object and return the updated one.
    - What lies outside the process (the provider, the wall clock, the file
      system's faults) is an oracle in [Config], indexed by a counter kept
      in [World]; the module-level settings ([maxRuntime],
      [disableCacheSave], ...) are fields of [Config] too.
    - [World] also keeps a chronological [trace] of what the run did, one
      event per console notice, provider call, sleep or write of a cache or
      output file.
    - A Python exception is a [Raise] result; the state reached when it was
      raised is kept, the partly updated document is not.
    - Paths are POSIX paths, as the [data/] of the source has them.
    - The files are kept by the role the program gives them: the documents
      it reads, the cache files and the output files. For a document whose
      name holds [data/] the three paths differ, and this is how
      [translate_file] is modelled; for a name without [data/] the source
      uses the document's own path as cache file and as output file, which
      the three maps do not express, so the statements about the driver are
      for names under [data/].
    - A cache file, when it parses, is a mapping from strings to strings, as
      every cache file the program writes is.
    - The interpreter's recursion limit is not modelled: the walker is the
      source's on documents whose nesting stays within the limit. *)

From Stdlib Require Import Ascii String List ZArith QArith Lia DecimalString.
From stdpp Require Import gmap strings list.

Open Scope nat_scope.
Set Warnings "-register-all".

(** ** Texts *)

Abbreviation text := (list ascii).

Definition txt (s : string) : text := Stdlib.Strings.String.list_ascii_of_string s.

(** [str(n)] for a non-negative [int]. *)
Definition str_of_nat (n : nat) : text :=
  txt (NilEmpty.string_of_uint (Nat.to_uint n)).

(** [s.startswith(p)]. *)
Fixpoint startswith (p s : text) : bool :=
  match p, s with
  | [], _ => true
  | _ :: _, [] => false
  | a :: p', b :: s' => Ascii.eqb a b && startswith p' s'
  end.

(** [p in s]. *)
Fixpoint contains (p s : text) : bool :=
  startswith p s ||
  match s with
  | [] => false
  | _ :: s' => contains p s'
  end.

(** [s.replace(old, new, 1)]: the leftmost occurrence only. *)
Fixpoint replace_first (old new s : text) : text :=
  if startswith old s then new ++ drop (length old) s
  else match s with
       | [] => []
       | c :: s' => c :: replace_first old new s'
       end.

(** [s.replace(old, new)] for a non-empty [old]: every occurrence, left to
    right, without overlap. [skip] counts the characters of an occurrence
    that are still to be passed over. *)
Fixpoint replace_all_from (old new : text) (skip : nat) (s : text) : text :=
  match s with
  | [] => []
  | c :: s' =>
      match skip with
      | S k => replace_all_from old new k s'
      | O =>
          if startswith old s
          then new ++ replace_all_from old new (length old - 1) s'
          else c :: replace_all_from old new 0 s'
      end
  end.

Definition replace_all (old new s : text) : text := replace_all_from old new 0 s.

(** ** The tag pattern [TAG_REGEX = r"{.*?}"]

    An opening brace, the shortest run of characters other than a line
    feed, a closing brace. *)

Definition LF : ascii := "010"%char.

(** After the opening brace: the run up to the first closing brace, unless
    a line feed or the end of the text comes first. *)
Fixpoint scan_close (r : text) : option (text * text) :=
  match r with
  | [] => None
  | c :: r' =>
      if Ascii.eqb c "}" then Some ([], r')
      else if Ascii.eqb c LF then None
      else match scan_close r' with
           | Some (body, rest) => Some (c :: body, rest)
           | None => None
           end
  end.

(** The pattern anchored at the start of [s]: the matched tag and what
    follows it. *)
Definition match_tag (s : text) : option (text * text) :=
  match s with
  | c :: r =>
      if Ascii.eqb c "{" then
        match scan_close r with
        | Some (body, rest) => Some ("{"%char :: body ++ ["}"%char], rest)
        | None => None
        end
      else None
  | [] => None
  end.

(** [re.search(TAG_REGEX, s)]: the leftmost match, with the text before it
    and the text after it. *)
Fixpoint search (s : text) : option (text * text * text) :=
  match match_tag s with
  | Some (tag, rest) => Some ([], tag, rest)
  | None =>
      match s with
      | [] => None
      | c :: s' =>
          match search s' with
          | Some (gap, tag, rest) => Some (c :: gap, tag, rest)
          | None => None
          end
      end
  end.

(** The scan shared by [re.finditer] and [re.sub]: the successive matches,
    each with the unmatched text before it, and the unmatched tail. Every
    match has at least two characters, so [length s] rounds are enough. *)
Fixpoint scan_tags (fuel : nat) (s : text) : list (text * text) * text :=
  match fuel with
  | O => ([], s)
  | S fuel' =>
      match search s with
      | Some (gap, tag, rest) =>
          let '(segs, last) := scan_tags fuel' rest in ((gap, tag) :: segs, last)
      | None => ([], s)
      end
  end.

Definition re_scan (s : text) : list (text * text) * text := scan_tags (length s) s.

(** [[m.group(0) for m in re.finditer(TAG_REGEX, s)]]. *)
Definition finditer (s : text) : list text := (re_scan s).1.*2.

(** [re.sub(TAG_REGEX, repl, s)] for a literal [repl]. *)
Definition re_sub_tags (repl s : text) : text :=
  foldr (fun '(gap, _) acc => gap ++ repl ++ acc) (re_scan s).2 (re_scan s).1.

(** ** TagCodec: [links2tags] and [tags2links] *)

(** The positional marker [f"(%{count}%)"]. *)
Definition marker (count : nat) : text := txt "(%" ++ str_of_nat count ++ txt "%)".

(** One round of the loop of [links2tags]; the state is [(text, links, count)]. *)
Definition links2tags_step (st : text * list text * nat) (m : text) : text * list text * nat :=
  let '(t, links, count) := st in
  (replace_first m (marker count) t, links ++ [m], S count).

Definition links2tags (t : text) : text * list text :=
  (fold_left links2tags_step (finditer t) (t, [], 0)).1.

(** [enumerate(l, start)]. *)
Fixpoint enumerate_from {A} (start : nat) (l : list A) : list (nat * A) :=
  match l with
  | [] => []
  | x :: l' => (start, x) :: enumerate_from (S start) l'
  end.

Definition tags2links_step (t : text) (il : nat * text) : text :=
  replace_first (marker il.1) il.2 t.

Definition tags2links (t : text) (links : list text) : text :=
  fold_left tags2links_step (enumerate_from 0 links) t.

(** ** The short-text test of [translate] *)

(** [\d] for a [str] pattern, below code point 256. *)
Definition is_digit (c : ascii) : bool :=
  let n := nat_of_ascii c in (48 <=? n) && (n <=? 57).

(** [\s] for a [str] pattern, below code point 256: tab, line feed,
    vertical tab, form feed, carriage return, the four separators
    28 to 31, space, next line (133) and no-break space (160). *)
Definition is_space (c : ascii) : bool :=
  let n := nat_of_ascii c in
  ((9 <=? n) && (n <=? 13)) || ((28 <=? n) && (n <=? 32)) || (n =? 133) || (n =? 160).

(** The class [[\d\s()\[\].,_-]]. *)
Definition in_strip_class (c : ascii) : bool :=
  is_digit c || is_space c ||
  existsb (Ascii.eqb c) ["("; ")"; "["; "]"; "."; ","; "_"; "-"]%char.

(** [re.sub(r"[\d\s()\[\].,_-]+", "", s)]: every run of characters of the
    class is removed, that is, every character of the class. *)
Definition strip_class (s : text) : text := filter (fun c => in_strip_class c = false) s.

(** The guard at the head of [translate]:
    [len(re.sub(r"[\d\s()\[\].,_-]+", "", re.sub(TAG_REGEX, "", text))) < 5]. *)
Definition too_short (t : text) : bool :=
  length (strip_class (re_sub_tags [] t)) <? 5.

(** ** Documents *)

(** A parsed JSON value. A mapping keeps its fields in order, as a Python
    [dict] does; the fields of a parsed object have distinct names. The
    walker never looks inside a number. *)
Inductive json :=
| JNull
| JBool (b : bool)
| JNum (q : Q)
| JStr (s : text)
| JList (l : list json)
| JDict (d : list (text * json)).

(** [d.get(k)] on a mapping held in field order. *)
Fixpoint assoc {A} (k : text) (d : list (text * A)) : option A :=
  match d with
  | [] => None
  | (k', v) :: d' => if bool_decide (k = k') then Some v else assoc k d'
  end.

(** [k in names]. *)
Definition key_in (k : text) (names : list text) : bool := bool_decide (k ∈ names).

(** ** Exceptions, events, configuration and state *)

Inductive pyexn :=
| MaxRuntimeExceeded   (* Exception("Maximum runtime exceeded - aborting") *)
| UnsupportedLanguage  (* ValueError / Exception for an unknown language code *)
| TypeError            (* a non-string reached [re.sub], or a non-list was indexed *)
| DictChangedSize      (* RuntimeError: dictionary changed size during iteration *)
| FileError            (* the document could not be opened or parsed *)
| FileNotFoundError    (* os.makedirs(""): the path has no directory part *)
| OSError              (* a directory could not be created, a file not written *)
| CacheReadError       (* OSError or UnicodeDecodeError when the cache file is read *)
| SystemExit.          (* sys.exit(1) *)

Inductive Res (A : Type) :=
| Ok (a : A)
| Raise (e : pyexn).
Arguments Ok {A} a.
Arguments Raise {A} e.

Definition res_map {A B} (f : A -> B) (r : Res A) : Res B :=
  match r with
  | Ok a => Ok (f a)
  | Raise e => Raise e
  end.

(** What the file system does with one operation. *)
Inductive io_result :=
| IoOk
| IoFailClean     (* the operation failed and left nothing behind *)
| IoFailPartial.  (* a write failed after part of the file was written *)

(** The files of the three trees the program touches. *)
Inductive cache_file :=
| CacheJson (m : gmap text text)
| CacheCorrupt      (* [json.load] raises [json.JSONDecodeError] *)
| CacheUnreadable.  (* it cannot be opened, or is not UTF-8 *)

Inductive data_file :=
| DataJson (d : json)
| DataCorrupt.

Inductive output_file :=
| OutJson (d : json)
| OutPartial     (* the document as an exception left it *)
| OutTruncated.  (* what a failed write left of the file *)

Inductive event :=
| EvCacheGet (key : text)
| EvCacheMiss (key : text)
| EvSleep (delay : Q)
| EvProviderCall (arg : text)
| EvProviderError (attempt : nat)
| EvGiveUp (key : text)
| EvTranslated (key result : text)
| EvCacheWarning (file : text)
| EvSaveCache (file : text)
| EvWriteTemp (file : text)
| EvRename (src dst : text)
| EvSaveError (file : text)
| EvSaveDisabled (file : text)
| EvTraceback (e : pyexn)
| EvFileHeader (index : nat) (file : text)
| EvFileError (file : text) (e : pyexn)
| EvStats (cached sent : nat)
| EvWriteOutput (file : text)
| EvComplete (index total sent : nat).

Record Config := {
  maxRuntime : Z;                        (* --maxrun, seconds; 0 is unlimited *)
  disableCacheSave : bool;               (* --nocache *)
  suppressErrors : bool;                 (* --suppress-errors *)
  provider : nat -> text -> option text; (* the n-th provider call on a text; None: it raised *)
  clock : nat -> Q;                      (* time.time() - startTime at the n-th reading *)
  io_fault : nat -> io_result;           (* the fate of the n-th operation of a cache save *)
  fs_fault : nat -> io_result;           (* the same for making a directory, writing an output *)
}.

Record World := {
  calls : nat;                           (* provider calls made so far *)
  reads : nat;                           (* clock readings made so far *)
  ioops : nat;                           (* operations of cache saves made so far *)
  fsops : nat;                           (* directory creations and output writes made so far *)
  trace : list event;
  cache_files : gmap text cache_file;
  data_files : gmap text data_file;
  output_files : gmap text output_file;
  todoCharCounter : nat;
  currentFileIndex : nat;
}.

Definition log (e : event) (w : World) : World :=
  {| calls := calls w; reads := reads w; ioops := ioops w; fsops := fsops w;
     trace := trace w ++ [e];
     cache_files := cache_files w; data_files := data_files w;
     output_files := output_files w; todoCharCounter := todoCharCounter w;
     currentFileIndex := currentFileIndex w |}.

Definition bump_calls (w : World) : World :=
  {| calls := S (calls w); reads := reads w; ioops := ioops w; fsops := fsops w; trace := trace w;
     cache_files := cache_files w; data_files := data_files w;
     output_files := output_files w; todoCharCounter := todoCharCounter w;
     currentFileIndex := currentFileIndex w |}.

Definition bump_reads (w : World) : World :=
  {| calls := calls w; reads := S (reads w); ioops := ioops w; fsops := fsops w; trace := trace w;
     cache_files := cache_files w; data_files := data_files w;
     output_files := output_files w; todoCharCounter := todoCharCounter w;
     currentFileIndex := currentFileIndex w |}.

Definition bump_ioops (w : World) : World :=
  {| calls := calls w; reads := reads w; ioops := S (ioops w); fsops := fsops w; trace := trace w;
     cache_files := cache_files w; data_files := data_files w;
     output_files := output_files w; todoCharCounter := todoCharCounter w;
     currentFileIndex := currentFileIndex w |}.

Definition bump_fsops (w : World) : World :=
  {| calls := calls w; reads := reads w; ioops := ioops w; fsops := S (fsops w);
     trace := trace w;
     cache_files := cache_files w; data_files := data_files w;
     output_files := output_files w; todoCharCounter := todoCharCounter w;
     currentFileIndex := currentFileIndex w |}.

Definition set_cache_files (f : gmap text cache_file) (w : World) : World :=
  {| calls := calls w; reads := reads w; ioops := ioops w; fsops := fsops w; trace := trace w;
     cache_files := f; data_files := data_files w;
     output_files := output_files w; todoCharCounter := todoCharCounter w;
     currentFileIndex := currentFileIndex w |}.

Definition set_output_files (f : gmap text output_file) (w : World) : World :=
  {| calls := calls w; reads := reads w; ioops := ioops w; fsops := fsops w; trace := trace w;
     cache_files := cache_files w; data_files := data_files w;
     output_files := f; todoCharCounter := todoCharCounter w;
     currentFileIndex := currentFileIndex w |}.

Definition set_todoCharCounter (n : nat) (w : World) : World :=
  {| calls := calls w; reads := reads w; ioops := ioops w; fsops := fsops w; trace := trace w;
     cache_files := cache_files w; data_files := data_files w;
     output_files := output_files w; todoCharCounter := n;
     currentFileIndex := currentFileIndex w |}.

Definition set_currentFileIndex (n : nat) (w : World) : World :=
  {| calls := calls w; reads := reads w; ioops := ioops w; fsops := fsops w; trace := trace w;
     cache_files := cache_files w; data_files := data_files w;
     output_files := output_files w; todoCharCounter := todoCharCounter w;
     currentFileIndex := n |}.

(** The fields of a [TranslatorService] object. [current_file_name] only
    feeds console messages and is left out. *)
Record Translator := {
  target_lang : text;
  cacheFile : text;
  cacheDirty : bool;
  cacheData : gmap text text;
  charCount : nat;
  cachedCharCount : nat;
}.

Definition set_cache (dirty : bool) (m : gmap text text) (tr : Translator) : Translator :=
  {| target_lang := target_lang tr; cacheFile := cacheFile tr; cacheDirty := dirty;
     cacheData := m; charCount := charCount tr; cachedCharCount := cachedCharCount tr |}.

Definition add_charCount (n : nat) (tr : Translator) : Translator :=
  {| target_lang := target_lang tr; cacheFile := cacheFile tr; cacheDirty := cacheDirty tr;
     cacheData := cacheData tr; charCount := charCount tr + n;
     cachedCharCount := cachedCharCount tr |}.

Definition add_cachedCharCount (n : nat) (tr : Translator) : Translator :=
  {| target_lang := target_lang tr; cacheFile := cacheFile tr; cacheDirty := cacheDirty tr;
     cacheData := cacheData tr; charCount := charCount tr;
     cachedCharCount := cachedCharCount tr + n |}.

(** The state a method of the service runs in. *)
Abbreviation St := (Translator * World)%type.

Definition MAX_RETRIES : nat := 5.
Definition BASE_DELAY : Q := 1.

Definition supported_languages : list (text * text) := [(txt "it", txt "it")].

(** [BASE_DELAY * (2 ** (attempt - 1))], computed for [attempt > 0]. *)
Definition backoff (attempt : nat) : Q := (BASE_DELAY * 2 ^ Z.of_nat (attempt - 1))%Q.

(** ** TranslatorService *)

Section Service.
Context (cfg : Config).

(** [TranslatorService.__init__]: the language check, then the cache file,
    when there is one, is read; an unparsable one gives a warning and an
    empty cache. Only [json.JSONDecodeError] is caught: any other failure
    to read the file leaves the constructor. *)
Definition TranslatorService_init (language_code file : text) (w : World) : World * Res Translator :=
  match assoc language_code supported_languages with
  | None => (w, Raise UnsupportedLanguage)
  | Some target =>
      let fresh m := {| target_lang := target; cacheFile := file; cacheDirty := false;
                        cacheData := m; charCount := 0; cachedCharCount := 0 |} in
      match cache_files w !! file with
      | Some (CacheJson m) => (w, Ok (fresh m))
      | Some CacheCorrupt => (log (EvCacheWarning file) w, Ok (fresh ∅))
      | Some CacheUnreadable => (w, Raise CacheReadError)
      | None => (w, Ok (fresh ∅))
      end
  end.

(** [cacheSync]: the mapping goes to [<cacheFile>.swp], which is then
    renamed over the cache file; an exception of either step is printed. *)
Definition cacheSync (tr : Translator) (w : World) : St :=
  if cacheDirty tr then
    let w := log (EvSaveCache (cacheFile tr)) w in
    let temp_file := cacheFile tr ++ txt ".swp" in
    match io_fault cfg (ioops w) with
    | IoOk =>
        let w := log (EvWriteTemp temp_file)
                   (set_cache_files (<[temp_file := CacheJson (cacheData tr)]> (cache_files w))
                      (bump_ioops w)) in
        match io_fault cfg (ioops w) with
        | IoOk =>
            let w := log (EvRename temp_file (cacheFile tr))
                       (set_cache_files
                          (<[cacheFile tr := CacheJson (cacheData tr)]>
                             (delete temp_file (cache_files w)))
                          (bump_ioops w)) in
            (set_cache false (cacheData tr) tr, w)
        | _ => (tr, log (EvSaveError (cacheFile tr)) (bump_ioops w))
        end
    | IoFailClean => (tr, log (EvSaveError (cacheFile tr)) (bump_ioops w))
    | IoFailPartial =>
        (tr, log (EvSaveError (cacheFile tr))
               (set_cache_files (<[temp_file := CacheCorrupt]> (cache_files w)) (bump_ioops w)))
    end
  else (tr, w).

(** [TranslatorService.__exit__(exc_type, ...)]; it returns [None], so an
    exception that reached it goes on. *)
Definition TranslatorService_exit (exc : option pyexn) (tr : Translator) (w : World) : St :=
  let '(tr, w) :=
    if negb (disableCacheSave cfg) then cacheSync tr w
    else (tr, log (EvSaveDisabled (cacheFile tr)) w) in
  match exc with
  | Some e => if negb (suppressErrors cfg) then (tr, log (EvTraceback e) w) else (tr, w)
  | None => (tr, w)
  end.

Definition cacheSet (key value : text) (tr : Translator) : Translator :=
  if disableCacheSave cfg then tr
  else set_cache true (<[key := value]> (cacheData tr)) tr.

Definition cacheGet (key : text) (tr : Translator) : option text := cacheData tr !! key.

(** [maxRuntime != 0 and time.time() - startTime > maxRuntime]; the clock
    is read only when a limit is set. *)
Definition deadline_exceeded (w : World) : World * bool :=
  if (maxRuntime cfg =? 0)%Z then (w, false)
  else (bump_reads w, negb (Qle_bool (clock cfg (reads w)) (inject_Z (maxRuntime cfg)))).

(** The retry loop, [for attempt in range(MAX_RETRIES)], with [n] rounds
    left: the backoff sleep before every attempt but the first, the
    provider call, and either the [break] or the error notice. [None] is
    the loop running out, with [translated_text] never bound. *)
Fixpoint retry_loop (n attempt : nat) (arg : text) (w : World) : World * option text :=
  match n with
  | O => (w, None)
  | S n' =>
      let w := if 0 <? attempt then log (EvSleep (backoff attempt)) w else w in
      let answer := provider cfg (calls w) arg in
      let w := bump_calls (log (EvProviderCall arg) w) in
      match answer with
      | Some translated_text => (w, Some translated_text)
      | None => retry_loop n' (S attempt) arg (log (EvProviderError (S attempt)) w)
      end
  end.

(** [TranslatorService.translate]. *)
Definition translate (t : text) (st : St) : St * Res text :=
  let '(tr, w) := st in
  if too_short t then (tr, w, Ok t)
  else
    let w := log (EvCacheGet t) w in
    match cacheGet t tr with
    | Some cached_result => (add_cachedCharCount (length t) tr, w, Ok cached_result)
    | None =>
        let w := log (EvCacheMiss t) w in
        let '(w, late) := deadline_exceeded w in
        if late then (tr, w, Raise MaxRuntimeExceeded)
        else
          let tr := add_charCount (length t) tr in
          let '(translate_text, links) := links2tags t in
          match retry_loop MAX_RETRIES 0 translate_text w with
          | (w, None) => (tr, log (EvGiveUp t) w, Ok t)
          | (w, Some translated_text) =>
              let translated_text := tags2links translated_text links in
              (cacheSet t translated_text tr, log (EvTranslated t translated_text) w,
               Ok translated_text)
          end
    end.

(** ** The document walker, [translate_data] *)

(** A loop over a list whose body may raise: the elements before the one
    that raised have been handled, the rest is not reached. *)
Fixpoint for_each {A B} (body : A -> St -> St * Res B) (l : list A) (st : St)
  : St * Res (list B) :=
  match l with
  | [] => (st, Ok [])
  | x :: l' =>
      match body x st with
      | (st, Ok y) =>
          match for_each body l' st with
          | (st, Ok l'') => (st, Ok (y :: l''))
          | (st, Raise e) => (st, Raise e)
          end
      | (st, Raise e) => (st, Raise e)
      end
  end.

Definition then_wrap {A B} (f : A -> B) (r : St * Res A) : St * Res B := (r.1, res_map f r.2).

(** [translator.translate(item)] on a value of any type: [re.sub] rejects
    what is not a string. *)
Definition translate_value (item : json) (st : St) : St * Res json :=
  match item with
  | JStr s => then_wrap JStr (translate s st)
  | _ => (st, Raise TypeError)
  end.

(** The loop [for idx, item in enumerate(items): data[k][section][idx] =
    translator.translate(item)] under the field [other]. A list has its
    elements replaced. A non-empty string yields its first character, whose
    translation cannot be stored in a string. A non-empty mapping yields its
    first key, and storing under the index [0] adds a key, which ends the
    iteration with an error. Nothing else can be iterated. *)
Definition walk_section (items : json) (st : St) : St * Res json :=
  match items with
  | JList l => then_wrap JList (for_each translate_value l st)
  | JStr [] => (st, Ok items)
  | JStr (c :: _) =>
      match translate [c] st with
      | (st, Ok _) => (st, Raise TypeError)
      | (st, Raise e) => (st, Raise e)
      end
  | JDict [] => (st, Ok items)
  | JDict ((k0, _) :: _) =>
      match translate k0 st with
      | (st, Ok _) => (st, Raise DictChangedSize)
      | (st, Raise e) => (st, Raise e)
      end
  | JNull | JBool _ | JNum _ => (st, Raise TypeError)
  end.

(** The loop [for elidx, el in enumerate(entry)] over a nested list: a
    string of more than two characters is replaced by its translation. *)
Definition translate_long (el : json) (st : St) : St * Res json :=
  match el with
  | JStr s => if 2 <? length s then then_wrap JStr (translate s st) else (st, Ok el)
  | _ => (st, Ok el)
  end.

Definition named_fields : list text :=
  [txt "entries"; txt "items"; txt "rows"; txt "headerEntries"; txt "reasons";
   txt "other"; txt "lifeTrinket"].

(** ["type" not in data or data["type"] != "list"]. *)
Definition type_is_not_list (data : list (text * json)) : bool :=
  match assoc (txt "type") data with
  | None => true
  | Some (JStr s) => negb (bool_decide (s = txt "list"))
  | Some _ => true
  end.

Section Walk.
Context (rec : json -> St -> St * Res json).

(** [translate_data(translator, entry)] on a nested list whose strings the
    loop above has just replaced: [orig] is the list before that loop and
    [new] the list after it. The two differ only where [orig] holds a
    string, and there the recursive call meets a string and does nothing;
    everywhere else it descends into the element of [orig]. *)
Fixpoint walk_again (orig new : list json) (st : St) : St * Res (list json) :=
  match orig, new with
  | x :: orig', y :: new' =>
      match (match x with JStr _ => (st, Ok y) | _ => rec x st end) with
      | (st, Ok y') =>
          match walk_again orig' new' st with
          | (st, Ok l) => (st, Ok (y' :: l))
          | (st, Raise e) => (st, Raise e)
          end
      | (st, Raise e) => (st, Raise e)
      end
  | _, _ => (st, Ok new)
  end.

(** The body of [for idx, entry in enumerate(v)]. *)
Definition walk_entry (entry : json) (st : St) : St * Res json :=
  match entry with
  | JList els =>
      match for_each translate_long els st with
      | (st, Ok els') => then_wrap JList (walk_again els els' st)
      | (st, Raise e) => (st, Raise e)
      end
  | JStr s => then_wrap JStr (translate s st)
  | _ => rec entry st
  end.

(** The body of [for k, v in data.items()], with the mapping as it stands
    when the field is reached. The three tests of the source ask for a
    string, a mapping and a list in turn, so they are told apart by the
    type of [v]; whatever passes none of them is walked as a generic node. *)
Definition walk_field (data : list (text * json)) (k : text) (v : json) (st : St)
  : St * Res json :=
  match v with
  | JStr s =>
      if key_in k [txt "entry"; txt "effect"] then then_wrap JStr (translate s st)
      else rec v st
  | JDict sections =>
      if bool_decide (k = txt "other") then
        then_wrap JDict
          (for_each (fun '(section, items) st =>
                       then_wrap (pair section) (walk_section items st)) sections st)
      else rec v st
  | JList l =>
      if key_in k named_fields then
        if bool_decide (k = txt "items") && type_is_not_list data then (st, Ok v)
        else then_wrap JList (for_each walk_entry l st)
      else rec v st
  | _ => rec v st
  end.

(** [for k, v in data.items()]: [done] holds the fields already handled,
    with their new values, [todo] the fields still to come. *)
Fixpoint walk_fields (done todo : list (text * json)) (st : St)
  : St * Res (list (text * json)) :=
  match todo with
  | [] => (st, Ok done)
  | (k, v) :: todo' =>
      match walk_field (done ++ todo) k v st with
      | (st, Ok v') => walk_fields (done ++ [(k, v')]) todo' st
      | (st, Raise e) => (st, Raise e)
      end
  end.

End Walk.

Fixpoint translate_data (data : json) (st : St) {struct data} : St * Res json :=
  match data with
  | JList l => then_wrap JList (for_each translate_data l st)
  | JDict d => then_wrap JDict (walk_fields translate_data [] d st)
  | _ => (st, Ok data)
  end.

(** ** The driver: [translate_file] and the main loop *)

(** [os.path.dirname(p) == ""]: the path holds no slash. *)
Definition dirname_empty (p : text) : bool := negb (existsb (Ascii.eqb "/") p).

(** [os.makedirs(os.path.dirname(p), exist_ok=True)]: an empty directory
    name is refused; any other directory is there afterwards unless the
    file system fails. *)
Definition makedirs_dirname (p : text) (w : World) : World * Res unit :=
  if dirname_empty p then (w, Raise FileNotFoundError)
  else
    match fs_fault cfg (fsops w) with
    | IoOk => (bump_fsops w, Ok tt)
    | _ => (bump_fsops w, Raise OSError)
    end.

(** [with open(output_file, "w", encoding="utf-8") as f: json.dump(data, f, ...)]. *)
Definition write_output (path : text) (data : output_file) (w : World) : World * Res unit :=
  match fs_fault cfg (fsops w) with
  | IoOk =>
      (log (EvWriteOutput path)
         (set_output_files (<[path := data]> (output_files w)) (bump_fsops w)),
       Ok tt)
  | IoFailClean => (bump_fsops w, Raise OSError)
  | IoFailPartial =>
      (set_output_files (<[path := OutTruncated]> (output_files w)) (bump_fsops w),
       Raise OSError)
  end.

(** [translate_file(language, fileName, writeJSON)]. The two directories
    are made and the service is built before the [try]: what they raise
    leaves the function. Whatever the reading or the walk raises is caught
    and printed; the statistics, the closing of the cache scope and the
    writing of the output follow in every case. The output is the walked
    document, [{}] when the input could not be read, and the partly walked
    document after an exception; what the writing raises leaves the
    function too. *)
Definition translate_file (language fileName : text) (writeJSON : bool) (w : World)
  : World * Res unit :=
  let cache_file :=
    replace_all (txt "data/") (txt "translation/cache/" ++ language ++ txt "/") fileName in
  match makedirs_dirname cache_file w with
  | (w, Raise e) => (w, Raise e)
  | (w, Ok _) =>
  let output_file :=
    replace_all (txt "data/") (txt "data." ++ language ++ txt "/") fileName in
  match makedirs_dirname output_file w with
  | (w, Raise e) => (w, Raise e)
  | (w, Ok _) =>
  match TranslatorService_init language cache_file w with
  | (w, Raise e) => (w, Raise e)
  | (w, Ok translator) =>
      let '(translator, w, data) :=
        match data_files w !! fileName with
        | Some (DataJson d) =>
            match translate_data d (translator, w) with
            | (translator, w, Ok d') => (translator, w, OutJson d')
            | (translator, w, Raise e) =>
                (translator, log (EvFileError fileName e) w, OutPartial)
            end
        | _ => (translator, log (EvFileError fileName FileError) w, OutJson (JDict []))
        end in
      let w := log (EvStats (cachedCharCount translator) (charCount translator)) w in
      let w := set_todoCharCounter (todoCharCounter w + charCount translator) w in
      let '(_, w) := TranslatorService_exit None translator w in
      if writeJSON then write_output output_file data w else (w, Ok tt)
  end
  end
  end.

(** The main translation loop, [for file in all_files]; an exception that
    leaves [translate_file] ends it. *)
Fixpoint main_loop (language : text) (writeJSON : bool) (files : list text) (w : World)
  : World * Res unit :=
  match files with
  | [] => (w, Ok tt)
  | file :: files' =>
      let w := set_currentFileIndex (S (currentFileIndex w)) w in
      let w := log (EvFileHeader (currentFileIndex w) file) w in
      if startswith (txt "data/generated") file then main_loop language writeJSON files' w
      else
        match translate_file language file writeJSON w with
        | (w, Ok _) => main_loop language writeJSON files' w
        | (w, Raise e) => (w, Raise e)
        end
  end.

(** The script body after argument parsing: [language] is
    [args.language.lower()], [all_files] the expanded patterns. *)
Definition main (language : text) (writeJSON : bool) (all_files : list text) (w : World)
  : World * Res unit :=
  match assoc language supported_languages with
  | None => (w, Raise UnsupportedLanguage)
  | Some _ =>
      match all_files with
      | [] => (w, Raise SystemExit)
      | _ :: _ =>
          let w := set_currentFileIndex 0 w in
          match main_loop language writeJSON all_files w with
          | (w, Ok _) =>
              (log (EvComplete (currentFileIndex w) (length all_files) (todoCharCounter w)) w,
               Ok tt)
          | (w, Raise e) => (w, Raise e)
          end
      end
  end.

End Service.

(** * Notions used by the statements and proofs *)

(** ** Tags and the text between them *)

(** A character the body of a tag may hold. *)
Definition plain (c : ascii) : Prop := c <> "}"%char /\ c <> LF.

Definition is_tag (t : text) : Prop :=
  exists body, t = "{"%char :: body ++ ["}"%char] /\ Forall plain body.

(** A line feed comes before any closing brace. *)
Fixpoint blocked (r : text) : bool :=
  match r with
  | [] => false
  | c :: r' =>
      if Ascii.eqb c "}" then false
      else if Ascii.eqb c LF then true
      else blocked r'
  end.

(** No opening brace of [g] can start a tag, whatever follows [g]. *)
Fixpoint closed (g : text) : Prop :=
  match g with
  | [] => True
  | c :: g' => (c = "{"%char -> blocked g' = true) /\ closed g'
  end.

(** [old] starts at no position of [A] in the text [A ++ X]. *)
Fixpoint absent_before (old A X : text) : Prop :=
  match A with
  | [] => True
  | _ :: A' => startswith old (A ++ X) = false /\ absent_before old A' X
  end.

Definition good_seg (gt : text * text) : Prop := closed gt.1 /\ is_tag gt.2.

(** The text a scan came from. *)
Definition flatten (segs : list (text * text)) (last : text) : text :=
  foldr (fun '(gap, tag) acc => gap ++ tag ++ acc) last segs.

(** The same text with its tags replaced by the markers [count],
    [count + 1], ... *)
Fixpoint placeholders (count : nat) (segs : list (text * text)) (last : text) : text :=
  match segs with
  | [] => last
  | (gap, _) :: segs' => gap ++ marker count ++ placeholders (S count) segs' last
  end.

(** ** Runs of [translate] *)

(** The world after [n] more provider calls and the events [evs]. *)
Definition advance (n : nat) (evs : list event) (w : World) : World :=
  {| calls := calls w + n; reads := reads w; ioops := ioops w; fsops := fsops w;
     trace := trace w ++ evs;
     cache_files := cache_files w; data_files := data_files w;
     output_files := output_files w; todoCharCounter := todoCharCounter w;
     currentFileIndex := currentFileIndex w |}.

(** The deadline has not passed at the next reading of the clock. *)
Definition in_time (cfg : Config) (w : World) : Prop := (deadline_exceeded cfg w).2 = false.

(** The world in which the retry loop starts: the lookup and the miss
    have been noted and the clock, if a limit is set, has been read. *)
Definition checked (cfg : Config) (t : text) (w : World) : World :=
  (deadline_exceeded cfg (log (EvCacheMiss t) (log (EvCacheGet t) w))).1.

(** What the retry loop notes before and at an attempt: the backoff sleep,
    except before the first attempt, and the provider call. *)
Definition attempt_events (attempt : nat) (arg : text) : list event :=
  (if 0 <? attempt then [EvSleep (backoff attempt)] else []) ++ [EvProviderCall arg].

(** The events of [k] failed attempts in a row, starting with the attempt
    numbered [attempt]. *)
Fixpoint failed_attempts (k attempt : nat) (arg : text) : list event :=
  match k with
  | O => []
  | S k' =>
      attempt_events attempt arg ++ EvProviderError (S attempt) ::
      failed_attempts k' (S attempt) arg
  end.

(** The number of provider failures a trace records. *)
Fixpoint recorded_failures (evs : list event) : nat :=
  match evs with
  | [] => 0
  | EvProviderError _ :: evs' => S (recorded_failures evs')
  | _ :: evs' => recorded_failures evs'
  end.

(** The provider calls a trace records. *)
Fixpoint provider_calls (evs : list event) : nat :=
  match evs with
  | [] => 0
  | EvProviderCall _ :: evs' => S (provider_calls evs')
  | _ :: evs' => provider_calls evs'
  end.

(** ** Sample runs *)

Definition world0 : World :=
  {| calls := 0; reads := 0; ioops := 0; fsops := 0; trace := [];
     cache_files := ∅; data_files := ∅; output_files := ∅;
     todoCharCounter := 0; currentFileIndex := 0 |}.

Definition service0 : Translator :=
  {| target_lang := txt "it"; cacheFile := txt "translation/cache/it/spells.json";
     cacheDirty := false; cacheData := ∅; charCount := 0; cachedCharCount := 0 |}.

(** A run without a time limit and without file faults, around a provider
    stub. *)
Definition stub (answers : nat -> text -> option text) (nocache : bool) : Config :=
  {| maxRuntime := 0; disableCacheSave := nocache; suppressErrors := false;
     provider := answers; clock := fun _ => 0%Q; io_fault := fun _ => IoOk;
     fs_fault := fun _ => IoOk |}.

(** A provider whose answer differs at every call. *)
Definition numbered (n : nat) (t : text) : option text :=
  Some (str_of_nat n ++ txt ": " ++ t).

(** A provider that fails [k] times and answers from then on. *)
Definition fails_then_answers (k n : nat) (t : text) : option text :=
  if n <? k then None else Some (txt "IT " ++ t).

Definition always_fails (n : nat) (t : text) : option text := None.

Definition sample : text := txt "Stacks with {bonus}".

(** A provider that answers at once. *)
Definition answers (n : nat) (t : text) : option text := Some (txt "IT " ++ t).

(** ** The walker *)

(** What the test on [type] sees of a value. *)
Definition type_view (v : json) : option text :=
  match v with
  | JStr s => Some s
  | _ => None
  end.

(** Two fields with the same name that the test on [type] cannot tell
    apart. *)
Definition same_for_type (kv kv' : text * json) : Prop :=
  kv.1 = kv'.1 /\ (kv.1 = txt "type" -> type_view kv.2 = type_view kv'.2).

(** A rule applied to the elements of a list in turn: it takes [x] in the
    state [s] to [y] in the state [s'], and the next element starts where
    the one before it ended. *)
Fixpoint threaded {A B} (rule : A -> St -> St -> B -> Prop) (l : list A) (st st' : St)
    (l' : list B) : Prop :=
  match l, l' with
  | [], [] => st' = st
  | x :: l, y :: l' => exists s1, rule x st s1 y /\ threaded rule l s1 st' l'
  | _, _ => False
  end.

(** What the walker first does to a sub-element [x] of a nested list, met
    in the state [s]: a string of more than two characters is replaced by
    what [translate] returns for it in [s]; anything else stays, and so
    does the state. *)
Definition sub_element_rule (cfg : Config) (x : json) (s s' : St) (y : json) : Prop :=
  match x with
  | JStr t =>
      if 2 <? length t
      then exists out, translate cfg t s = (s', Ok out) /\ y = JStr out
      else y = x /\ s' = s
  | _ => y = x /\ s' = s
  end.

(** What the generic walk of a list does to its element [x], met in the
    state [s]: a sequence or mapping is walked as a generic node; a string,
    number, boolean or null stays, and so does the state. *)
Definition generic_element_rule (cfg : Config) (x : json) (s s' : St) (y : json) : Prop :=
  match x with
  | JList _ | JDict _ => translate_data cfg x s = (s', Ok y)
  | _ => y = x /\ s' = s
  end.

(** What the walker does to an element [x] of a named sequence field, met
    in the state [s]. When [x] is itself a sequence, its sub-elements are
    first handled in turn by [sub_element_rule], which gives the list
    [els1] and the state [s1]; this list is then walked as a generic node,
    which handles its elements in turn by [generic_element_rule]. Any other
    element is handled as the body of the loop has it. *)
Definition nested_list_rule (cfg : Config) (x : json) (s s' : St) (y : json) : Prop :=
  match x with
  | JList els =>
      exists els1 s1 els2,
        threaded (sub_element_rule cfg) els s s1 els1 /\
        translate_data cfg (JList els1) s1 = (s', Ok y) /\
        threaded (generic_element_rule cfg) els1 s1 s' els2 /\
        y = JList els2
  | _ => walk_entry cfg (translate_data cfg) x s = (s', Ok y)
  end.

(** ** A run past its deadline

    The scenario of the specification: a limit of one second, and a
    provider whose first call takes the run past it, so that the clock
    reads 2 seconds from its second reading on. The first document has two
    entries that miss the cache; the second document has one entry, which
    its cache already holds. *)

Definition late_cfg : Config :=
  {| maxRuntime := 1; disableCacheSave := false; suppressErrors := false;
     provider := answers;
     clock := fun n => if n =? 0 then 0%Q else 2%Q;
     io_fault := fun _ => IoOk; fs_fault := fun _ => IoOk |}.

Definition late_world : World :=
  {| calls := 0; reads := 0; ioops := 0; fsops := 0; trace := [];
     cache_files :=
       {[ txt "translation/cache/it/b.json" :=
            CacheJson {[ txt "Stacks with {bonus}" := txt "Si somma a {bonus}" ]} ]};
     data_files :=
       {[ txt "data/a.json" :=
            DataJson (JDict [(txt "entry", JStr (txt "A spell of great power"));
                             (txt "effect", JStr (txt "Deals fire damage"))]);
          txt "data/b.json" :=
            DataJson (JDict [(txt "entry", JStr (txt "Stacks with {bonus}"))]) ]};
     output_files := ∅; todoCharCounter := 0; currentFileIndex := 0 |}.

(** ** Documents, for the further properties *)

(** A measure on documents for induction over the walk: every value is
    larger than the values it holds. *)
Fixpoint json_size (j : json) : nat :=
  match j with
  | JList l => S (foldr (fun x n => json_size x + n) 0 l)
  | JDict d => S (foldr (fun '(_, v) n => json_size v + n) 0 d)
  | _ => 1
  end.

(** The document with every string emptied: what is left is its shape,
    the field names in order, the lengths of the lists and the scalars
    that are not strings. *)
Fixpoint skeleton (j : json) : json :=
  match j with
  | JStr _ => JStr []
  | JList l => JList (map skeleton l)
  | JDict d => JDict (map (fun '(k, v) => (k, skeleton v)) d)
  | _ => j
  end.

(** The field names the walker has a rule for. *)
Definition rule_names : list text :=
  [txt "entry"; txt "effect"; txt "other"; txt "entries"; txt "items"; txt "rows";
   txt "headerEntries"; txt "reasons"; txt "lifeTrinket"].

(** Some mapping of the document has a field with one of these names. *)
Fixpoint mentions_rule (j : json) : bool :=
  match j with
  | JList l => existsb mentions_rule l
  | JDict d => existsb (fun '(k, v) => key_in k rule_names || mentions_rule v) d
  | _ => false
  end.

Definition is_str (j : json) : bool :=
  match j with
  | JStr _ => true
  | _ => false
  end.

(** A section under [other] the walker can handle: a list of strings. *)
Definition section_ok (items : json) : bool :=
  match items with
  | JList l => forallb is_str l
  | _ => false
  end.

(** A field the walker can handle without a type error: a mapping under
    [other] holds only lists of strings, and is not walked any further;
    any other value is judged by [ok]. *)
Definition field_ok (ok : json -> bool) (k : text) (v : json) : bool :=
  match v with
  | JDict sections =>
      if bool_decide (k = txt "other")
      then forallb (fun '(_, items) => section_ok items) sections
      else ok v
  | _ => ok v
  end.

(** Every mapping found under a field [other], anywhere in the document,
    holds only lists of strings. *)
Fixpoint other_ok (j : json) : bool :=
  match j with
  | JList l => forallb other_ok l
  | JDict d => forallb (fun '(k, v) => field_ok other_ok k v) d
  | _ => true
  end.

(** The nesting of a document: a scalar has none, a list or mapping one
    level more than what it holds. The walk of a document costs the
    interpreter one frame of [translate_data] for each level. *)
Fixpoint json_depth (j : json) : nat :=
  match j with
  | JList l => S (foldr (fun x n => Nat.max (json_depth x) n) 0 l)
  | JDict d => S (foldr (fun '(_, v) n => Nat.max (json_depth v) n) 0 d)
  | _ => 0
  end.

(** A nesting the interpreter can follow: CPython stops at 1000 frames
    unless told otherwise, which the script does not do, and a walk this
    deep leaves half of them to the script itself and to what [translate]
    calls. *)
Definition nesting_bound : nat := 500.

(** The walk of [x] by [rec], when it ends normally, leaves the shape of
    [x] as it was. *)
Definition keeps_skeleton (rec : json -> St -> St * Res json) (x : json) : Prop :=
  forall s s' y, rec x s = (s', Ok y) -> skeleton y = skeleton x.

(** ** Traces, for the further properties *)

(** Every provider call of the trace was given a text without tags. *)
Definition calls_tag_free (evs : list event) : Prop :=
  Forall (fun e => match e with
                   | EvProviderCall arg => finditer arg = []
                   | _ => True
                   end) evs.

(** The seconds a trace spends asleep. *)
Fixpoint slept (evs : list event) : Q :=
  match evs with
  | [] => 0
  | EvSleep d :: evs' => (d + slept evs')%Q
  | _ :: evs' => slept evs'
  end.

(** The part of the world the translation pipeline never touches while it
    walks a document: the three file trees, the counts of file operations
    and the two counters of the driver. *)
Definition disk (w : World) :=
  (cache_files w, data_files w, output_files w, ioops w, todoCharCounter w,
   currentFileIndex w, fsops w).

(** ** Paths, for the further properties *)

(** The cache file of a document,
    [fileName.replace("data/", f"translation/cache/{language}/")]. *)
Definition cache_path (language file : text) : text :=
  replace_all (txt "data/") (txt "translation/cache/" ++ language ++ txt "/") file.

(** The output file of a document,
    [fileName.replace("data/", f"data.{language}/")]. *)
Definition output_path (language file : text) : text :=
  replace_all (txt "data/") (txt "data." ++ language ++ txt "/") file.

(** ** The driver, for the further properties *)

(** No cache file is one that cannot be read. *)
Definition caches_readable (w : World) : Prop :=
  forall p, cache_files w !! p <> Some CacheUnreadable.

(** The file system does what it is asked whenever a directory is made or
    an output file written. *)
Definition no_fs_fault (cfg : Config) : Prop := forall n, fs_fault cfg n = IoOk.

(** * Properties *)

#[local] Arguments Ascii.eqb : simpl never.

(** ** The model on small inputs *)

Example finditer_skips_broken_tag :
  finditer (txt "a {b} {c" ++ [LF] ++ txt "} {{d} e}") = [txt "{b}"; txt "{{d}"].
Proof. by vm_compute. Qed.

Example links2tags_numbers_tags :
  links2tags (txt "Stacks with {bonus} and {@dice 1d6}")
  = (txt "Stacks with (%0%) and (%1%)", [txt "{bonus}"; txt "{@dice 1d6}"]).
Proof. by vm_compute. Qed.

Example tags2links_ignores_lost_marker :
  tags2links (txt "Si somma a (%1%)") [txt "{bonus}"; txt "{@dice 1d6}"]
  = txt "Si somma a {@dice 1d6}".
Proof. by vm_compute. Qed.

Example too_short_counts_letters_only :
  too_short (txt "+2 {@dice 1d6} (12)") = true /\ too_short (txt "Fire Bolt") = false.
Proof. by vm_compute. Qed.

Example replace_all_every_occurrence :
  replace_all (txt "data/") (txt "data.it/") (txt "data/spells/data/x.json")
  = txt "data.it/spells/data.it/x.json".
Proof. by vm_compute. Qed.

Example backoff_doubles :
  (backoff 1, backoff 2, backoff 3, backoff 4) = (1%Q, 2%Q, 4%Q, 8%Q).
Proof. by vm_compute. Qed.

(** ** Texts *)

Lemma startswith_app (p s : text) : startswith p (p ++ s) = true.
Proof.
  induction p as [|a p IH]; simpl; [by destruct s|].
  by rewrite Ascii.eqb_refl.
Qed.

Lemma startswith_nil (s : text) : startswith [] s = true.
Proof. by destruct s. Qed.

Lemma startswith_app_cases (p A Y : text) :
  startswith p (A ++ Y) = true ->
  startswith p A = true \/ exists p2, p = A ++ p2 /\ startswith p2 Y = true.
Proof.
  revert p. induction A as [|a A IH]; intros p H.
  - right. by exists p.
  - destruct p as [|b p]; [by left|].
    simpl in H. apply andb_true_iff in H as [Hb Hp].
    apply Ascii.eqb_eq in Hb as ->.
    destruct (IH _ Hp) as [Hl|(p2 & -> & Hr)].
    + left. simpl. by rewrite Ascii.eqb_refl.
    + right. by exists p2.
Qed.

Lemma contains_cons_false (p : text) c (s : text) :
  contains p (c :: s) = false -> startswith p (c :: s) = false /\ contains p s = false.
Proof. simpl. intros H. by apply orb_false_iff in H. Qed.

Lemma contains_startswith (p s : text) : startswith p s = true -> contains p s = true.
Proof. intros H. destruct s; simpl in *; by rewrite H. Qed.

Lemma startswith_app_l (p A Y : text) :
  startswith p A = true -> startswith p (A ++ Y) = true.
Proof.
  revert A. induction p as [|b p IH]; intros [|a A] H; simpl in *; try done.
  apply andb_true_iff in H as [-> H]. simpl. auto.
Qed.

Lemma contains_app_l (p A Y : text) : contains p (A ++ Y) = false -> contains p A = false.
Proof.
  induction A as [|a A IH]; intros H.
  - destruct p as [|b p]; [by destruct Y|done].
  - simpl in H. apply orb_false_iff in H as [Hs Hc]. simpl.
    rewrite (IH Hc), orb_false_r.
    destruct (startswith p (a :: A)) eqn:E; [|done].
    apply (startswith_app_l _ _ Y) in E. simpl in E. congruence.
Qed.

Lemma contains_app_r (p A Y : text) : contains p (A ++ Y) = false -> contains p Y = false.
Proof.
  induction A as [|a A IH]; [done|].
  intros H. simpl in H. apply orb_false_iff in H as [_ H]. auto.
Qed.

Lemma replace_first_eq (old new s : text) :
  replace_first old new s =
  if startswith old s then new ++ drop (length old) s
  else match s with
       | [] => []
       | c :: s' => c :: replace_first old new s'
       end.
Proof. by destruct s. Qed.

(** Where the first occurrence of [old] is known, [replace_first] rewrites
    exactly that one. *)
Lemma replace_first_at (old new A B : text) :
  absent_before old A (old ++ B) ->
  replace_first old new (A ++ old ++ B) = A ++ new ++ B.
Proof.
  induction A as [|a A IH]; intros H.
  - simpl. rewrite replace_first_eq, startswith_app. by rewrite drop_app_length.
  - destruct H as [H1 H2]. rewrite replace_first_eq, H1. simpl. by rewrite IH.
Qed.

(** ** The tag pattern *)

Lemma scan_close_body (body rest : text) :
  Forall plain body -> scan_close (body ++ "}"%char :: rest) = Some (body, rest).
Proof.
  induction 1 as [|c body [Hc1 Hc2] _ IH]; [done|].
  simpl. apply Ascii.eqb_neq in Hc1, Hc2. by rewrite Hc1, Hc2, IH.
Qed.

Lemma scan_close_inv (r body rest : text) :
  scan_close r = Some (body, rest) -> r = body ++ "}"%char :: rest /\ Forall plain body.
Proof.
  revert body. induction r as [|c r IH]; intros body H; [done|].
  simpl in H.
  destruct (Ascii.eqb_spec c "}") as [->|Hc1]; [by inversion H|].
  destruct (Ascii.eqb_spec c LF) as [->|Hc2]; [done|].
  destruct (scan_close r) as [[b rest']|]; [|done].
  inversion H; subst. destruct (IH _ eq_refl) as [-> Hb].
  split; [done|]. by constructor.
Qed.

Lemma match_tag_inv (s tag rest : text) :
  match_tag s = Some (tag, rest) -> s = tag ++ rest /\ is_tag tag.
Proof.
  destruct s as [|c r]; [done|]. simpl.
  destruct (Ascii.eqb_spec c "{") as [->|]; [|done].
  destruct (scan_close r) as [[body rest']|] eqn:E; [|done].
  intros H; inversion H; subst.
  apply scan_close_inv in E as [-> Hb]. split.
  - simpl. by rewrite <- app_assoc.
  - by exists body.
Qed.

Lemma blocked_app (r X : text) : blocked r = true -> blocked (r ++ X) = true.
Proof.
  induction r as [|c r IH]; [done|]. simpl.
  destruct (Ascii.eqb c "}"); [done|]. by destruct (Ascii.eqb c LF).
Qed.

(** If the scan for a closing brace fails although a tag follows, a line
    feed stopped it before the tag. *)
Lemma scan_close_None_blocked (g tag rest : text) :
  is_tag tag -> scan_close (g ++ tag ++ rest) = None -> blocked g = true.
Proof.
  intros (body & -> & Hb). induction g as [|c g IH]; simpl.
  - rewrite <- app_assoc. simpl. by rewrite scan_close_body.
  - destruct (Ascii.eqb c "}"); [done|]. destruct (Ascii.eqb c LF); [done|].
    destruct (scan_close (g ++ _)); [by destruct p|auto].
Qed.

(** A tag cannot start where a line feed comes before the closing brace. *)
Lemma blocked_no_body (body r X : text) :
  Forall plain body -> blocked r = true ->
  startswith (body ++ ["}"%char]) (r ++ X) = false.
Proof.
  intros Hb. revert r. induction Hb as [|b body [Hb1 Hb2] _ IH]; intros [|c r]; simpl; try done.
  - destruct (Ascii.eqb_spec c "}") as [->|]; [done|].
    intros _. apply andb_false_iff. left. by apply Ascii.eqb_neq.
  - destruct (Ascii.eqb_spec c "}") as [->|]; [done|].
    destruct (Ascii.eqb_spec c LF) as [->|].
    + intros _. apply andb_false_iff. left. by apply Ascii.eqb_neq.
    + intros H. apply andb_false_iff. right. auto.
Qed.

Lemma closed_app (A B : text) : closed A -> closed B -> closed (A ++ B).
Proof.
  induction A as [|c A IH]; [done|]. simpl. intros [H1 H2] HB.
  split; [|auto]. intros Hc. apply blocked_app; auto.
Qed.

Lemma closed_no_brace (m : text) : Forall (fun c => c <> "{"%char) m -> closed m.
Proof. induction 1; simpl; [done|]. split; [done|auto]. Qed.

Lemma closed_absent (tag A X : text) : is_tag tag -> closed A -> absent_before tag A X.
Proof.
  intros (body & -> & Hb). induction A as [|c A IH]; [done|].
  intros [H1 H2]. split; [|auto].
  simpl. destruct (Ascii.eqb_spec "{" c) as [<-|]; [|done].
  simpl. by apply blocked_no_body; auto.
Qed.

Lemma search_inv (s gap tag rest : text) :
  search s = Some (gap, tag, rest) ->
  s = gap ++ tag ++ rest /\ is_tag tag /\ closed gap.
Proof.
  revert gap. induction s as [|c s IH]; intros gap H; [done|].
  simpl in H.
  destruct (Ascii.eqb_spec c "{") as [->|Hc].
  - destruct (scan_close s) as [[body rest']|] eqn:E.
    + inversion H; subst. apply scan_close_inv in E as [-> Hb].
      repeat split; [simpl; by rewrite <- app_assoc|by exists body].
    + destruct (search s) as [[[g t] r]|]; [|done].
      inversion H; subst. destruct (IH _ eq_refl) as (-> & Ht & Hg).
      repeat split; try done. intros _. by eapply scan_close_None_blocked.
  - destruct (search s) as [[[g t] r]|]; [|done].
    inversion H; subst. destruct (IH _ eq_refl) as (-> & Ht & Hg).
    repeat split; done.
Qed.

Lemma search_length (s gap tag rest : text) :
  search s = Some (gap, tag, rest) -> length rest < length s.
Proof.
  intros H. apply search_inv in H as (-> & (body & -> & _) & _).
  rewrite !length_app. simpl. lia.
Qed.

Lemma scan_tags_fuel (n m : nat) (s : text) :
  length s <= n -> length s <= m -> scan_tags n s = scan_tags m s.
Proof.
  revert m s. induction n as [|n IH]; intros [|m] s Hn Hm; simpl; try done.
  - destruct s; [done|simpl in *; lia].
  - destruct s; [done|simpl in *; lia].
  - destruct (search s) as [[[g t] r]|] eqn:E; [|done].
    apply search_length in E. rewrite (IH m r); [done|lia|lia].
Qed.

Lemma re_scan_match (s gap tag rest : text) :
  search s = Some (gap, tag, rest) ->
  re_scan s = ((gap, tag) :: (re_scan rest).1, (re_scan rest).2).
Proof.
  intros H. unfold re_scan. pose proof (search_length _ _ _ _ H) as Hl.
  destruct (length s) as [|n] eqn:E; [lia|]. simpl. rewrite H.
  rewrite (scan_tags_fuel n (length rest)) by lia.
  by destruct (scan_tags (length rest) rest).
Qed.

Lemma re_scan_nomatch (s : text) : search s = None -> re_scan s = ([], s).
Proof. intros H. unfold re_scan. destruct (length s); simpl; by rewrite ?H. Qed.

(** The scan cuts the text into closed gaps, tags and a tail without a tag. *)
Lemma re_scan_spec (s : text) :
  s = flatten (re_scan s).1 (re_scan s).2 /\
  Forall good_seg (re_scan s).1 /\
  search (re_scan s).2 = None.
Proof.
  remember (length s) as n eqn:Hn. revert s Hn.
  induction n as [n IH] using lt_wf_ind. intros s ->.
  destruct (search s) as [[[g t] r]|] eqn:E.
  - rewrite (re_scan_match _ _ _ _ E). simpl.
    pose proof (search_length _ _ _ _ E) as Hl.
    destruct (IH _ Hl r eq_refl) as (Hr & Hgood & Hlast).
    apply search_inv in E as (-> & Ht & Hg).
    repeat split; [by rewrite <- Hr|by constructor|done].
  - rewrite (re_scan_nomatch _ E). by repeat split.
Qed.

(** ** Markers *)

Lemma string_of_uint_digits (d : Decimal.uint) :
  Forall (fun c => is_digit c = true) (txt (NilEmpty.string_of_uint d)).
Proof. induction d; simpl; by constructor. Qed.

Lemma str_of_nat_digits (n : nat) : Forall (fun c => is_digit c = true) (str_of_nat n).
Proof. apply string_of_uint_digits. Qed.

Lemma marker_shape (n : nat) :
  marker n = "("%char :: "%"%char :: str_of_nat n ++ ["%"; ")"]%char.
Proof. done. Qed.

Lemma marker_no_brace (n : nat) : Forall (fun c => c <> "{"%char) (marker n).
Proof.
  rewrite marker_shape. repeat constructor; try done.
  apply Forall_app. split; [|by repeat constructor].
  eapply Forall_impl; [apply str_of_nat_digits|]. by intros c Hc ->.
Qed.

(** The opening parenthesis of a marker occurs nowhere else in it. *)
Lemma marker_tail_no_paren (n : nat) :
  "("%char ∉ "%"%char :: str_of_nat n ++ ["%"; ")"]%char.
Proof.
  intros H. apply elem_of_cons in H as [H|H]; [done|].
  apply elem_of_app in H as [H|H].
  - pose proof (str_of_nat_digits n) as Hd.
    rewrite Forall_forall in Hd. by apply Hd in H.
  - apply elem_of_cons in H as [H|H]; [done|].
    apply elem_of_cons in H as [H|H]; [done|]. by apply elem_of_nil in H.
Qed.

(** A marker that does not occur in [A] cannot start inside [A] when it is
    put right after [A]: it would have to overlap itself. *)
Lemma marker_absent (n : nat) (A R : text) :
  contains (marker n) A = false -> absent_before (marker n) A (marker n ++ R).
Proof.
  induction A as [|a A IH]; [done|]. intros H.
  apply contains_cons_false in H as [Hs Hc].
  split; [|auto].
  destruct (startswith (marker n) ((a :: A) ++ marker n ++ R)) eqn:E; [|done].
  apply startswith_app_cases in E as [E|(p2 & Hp & E)]; [congruence|].
  destruct p2 as [|b p2].
  - rewrite app_nil_r in Hp. rewrite Hp in Hs.
    pose proof (startswith_app (a :: A) []) as Hr. rewrite app_nil_r in Hr. congruence.
  - rewrite marker_shape in E. simpl in E. apply andb_true_iff in E as [Eb _].
    apply Ascii.eqb_eq in Eb as ->.
    rewrite marker_shape in Hp. inversion Hp as [[Ha Ht]].
    exfalso. apply (marker_tail_no_paren n). rewrite Ht.
    apply elem_of_app. right. apply elem_of_cons. by left.
Qed.

(** ** TagCodec *)

Lemma flatten_cons (g t : text) segs last :
  flatten ((g, t) :: segs) last = g ++ t ++ flatten segs last.
Proof. done. Qed.

(** What [links2tags] computes: the tags in order, and the text with the
    i-th tag replaced by the i-th marker. *)
Lemma links2tags_fold (segs : list (text * text)) (last P : text) (L : list text) (c : nat) :
  closed P -> Forall good_seg segs ->
  fold_left links2tags_step (segs.*2) (P ++ flatten segs last, L, c) =
  (P ++ placeholders c segs last, L ++ segs.*2, c + length segs).
Proof.
  intros HP Hs. revert P L c HP.
  induction Hs as [|[g t] segs [Hg Ht] _ IH]; intros P L c HP.
  - simpl. by rewrite app_nil_r, Nat.add_0_r.
  - simpl in Hg, Ht. rewrite fmap_cons, flatten_cons.
    cbn [fold_left links2tags_step snd].
    replace (P ++ g ++ t ++ flatten segs last) with ((P ++ g) ++ t ++ flatten segs last)
      by by rewrite <- app_assoc.
    rewrite replace_first_at by (apply closed_absent; [done|by apply closed_app]).
    replace ((P ++ g) ++ marker c ++ flatten segs last)
      with ((P ++ g ++ marker c) ++ flatten segs last) by by rewrite <- !app_assoc.
    rewrite IH.
    + cbn [placeholders length]. f_equal; [f_equal|lia]; by rewrite <- !app_assoc.
    + apply closed_app; [done|].
      apply closed_app; [done|]. apply closed_no_brace, marker_no_brace.
Qed.

Lemma links2tags_spec (t : text) :
  links2tags t = (placeholders 0 (re_scan t).1 (re_scan t).2, finditer t).
Proof.
  destruct (re_scan_spec t) as (Ht & Hgood & _).
  unfold links2tags, finditer.
  pose proof (links2tags_fold _ (re_scan t).2 [] [] 0 I Hgood) as H.
  cbn [app] in H. rewrite <- Ht in H. by rewrite H.
Qed.

(** What [tags2links] undoes, as long as the markers still to be restored
    do not occur in the original text. *)
Lemma tags2links_fold (segs : list (text * text)) (last P : text) (c : nat) :
  (forall i, c <= i < c + length segs ->
             contains (marker i) (P ++ flatten segs last) = false) ->
  fold_left tags2links_step (enumerate_from c (segs.*2)) (P ++ placeholders c segs last) =
  P ++ flatten segs last.
Proof.
  revert P c. induction segs as [|[g t] segs IH]; intros P c H; [done|].
  rewrite fmap_cons. cbn [enumerate_from fold_left placeholders snd].
  unfold tags2links_step at 2. cbn [fst snd].
  replace (P ++ g ++ marker c ++ placeholders (S c) segs last)
    with ((P ++ g) ++ marker c ++ placeholders (S c) segs last) by by rewrite <- app_assoc.
  rewrite replace_first_at.
  - replace ((P ++ g) ++ t ++ placeholders (S c) segs last)
      with ((P ++ g ++ t) ++ placeholders (S c) segs last) by by rewrite <- !app_assoc.
    rewrite IH.
    + rewrite flatten_cons. by rewrite <- !app_assoc.
    + intros i Hi. specialize (H i). rewrite flatten_cons in H.
      rewrite <- !app_assoc. apply H. simpl. lia.
  - apply marker_absent. specialize (H c). rewrite flatten_cons in H.
    rewrite app_assoc in H. eapply contains_app_l, H. simpl. lia.
Qed.

(** C3, as stated, fails: a text that already holds the marker text before
    its first tag comes back changed, because restoring replaces the
    leftmost marker. For ["(%0%) {a}"] the round trip yields
    ["{a} (%0%)"]. *)
Lemma marker_text_breaks_round_trip :
  tags2links (links2tags (txt "(%0%) {a}")).1 (links2tags (txt "(%0%) {a}")).2
    = txt "{a} (%0%)" /\
  txt "{a} (%0%)" <> txt "(%0%) {a}".
Proof. split; [by vm_compute|discriminate]. Qed.

(** C3, amended: for every text in which none of the markers [(%i%)] that
    extraction generates (i below the number of tags found) already occurs,
    restoring the tags after extracting them, with nothing done in between,
    gives the text back: [tags2links(links2tags(text)) == text]. *)
Theorem tags_round_trip (t : text) :
  (forall i, i < length (finditer t) -> contains (marker i) t = false) ->
  tags2links (links2tags t).1 (links2tags t).2 = t.
Proof.
  intros H. rewrite links2tags_spec. cbn [fst snd].
  destruct (re_scan_spec t) as (Ht & _ & _).
  pose proof (tags2links_fold (re_scan t).1 (re_scan t).2 [] 0) as R.
  cbn [app] in R. rewrite <- Ht in R.
  unfold tags2links, finditer. apply R.
  intros i Hi. apply H. unfold finditer. rewrite length_fmap. lia.
Qed.

Lemma tags_round_trip_witness :
  tags2links (links2tags (txt "Stacks with {bonus} and {@dice 1d6}")).1
             (links2tags (txt "Stacks with {bonus} and {@dice 1d6}")).2
  = txt "Stacks with {bonus} and {@dice 1d6}".
Proof.
  apply (tags_round_trip (txt "Stacks with {bonus} and {@dice 1d6}")).
  intros i Hi. vm_compute in Hi.
  destruct i as [|[|i]]; [by vm_compute|by vm_compute|lia].
Defined.

(** ** The retry loop *)

Section Translate.
Context (cfg : Config).

Lemma advance_advance n m evs evs' w :
  advance n evs (advance m evs' w) = advance (m + n) (evs' ++ evs) w.
Proof. unfold advance. simpl. f_equal; [lia|by rewrite app_assoc]. Qed.

Lemma advance_0_nil w : advance 0 [] w = w.
Proof. destruct w. unfold advance. simpl. f_equal; [lia|by rewrite app_nil_r]. Qed.

Lemma log_advance e w : log e w = advance 0 [e] w.
Proof. unfold log, advance. f_equal. simpl. lia. Qed.

Lemma bump_calls_advance w : bump_calls w = advance 1 [] w.
Proof. unfold bump_calls, advance. f_equal; simpl; [lia|by rewrite app_nil_r]. Qed.

Lemma attempt_step attempt arg w :
  bump_calls (log (EvProviderCall arg)
    (if 0 <? attempt then log (EvSleep (backoff attempt)) w else w))
  = advance 1 (attempt_events attempt arg) w.
Proof.
  unfold attempt_events. rewrite bump_calls_advance.
  destruct (0 <? attempt); rewrite !log_advance, ?advance_advance; done.
Qed.

Lemma attempt_calls attempt w :
  calls (if 0 <? attempt then log (EvSleep (backoff attempt)) w else w) = calls w.
Proof. by destruct (0 <? attempt). Qed.

Lemma retry_loop_eq n attempt arg w :
  retry_loop cfg (S n) attempt arg w =
  match provider cfg (calls w) arg with
  | Some out => (advance 1 (attempt_events attempt arg) w, Some out)
  | None =>
      retry_loop cfg n (S attempt) arg
        (advance 1 (attempt_events attempt arg ++ [EvProviderError (S attempt)]) w)
  end.
Proof.
  cbn [retry_loop]. rewrite attempt_calls, attempt_step.
  destruct (provider cfg (calls w) arg); [done|].
  by rewrite log_advance, advance_advance.
Qed.

(** A provider that fails at every attempt exhausts the loop. *)
Lemma retry_loop_exhausted n attempt arg w :
  (forall j, j < n -> provider cfg (calls w + j) arg = None) ->
  retry_loop cfg n attempt arg w = (advance n (failed_attempts n attempt arg) w, None).
Proof.
  revert attempt w. induction n as [|n IH]; intros attempt w H.
  - by rewrite advance_0_nil.
  - rewrite retry_loop_eq. rewrite <- (Nat.add_0_r (calls w)), H by lia.
    rewrite IH.
    + rewrite advance_advance. cbn [failed_attempts]. by rewrite <- app_assoc.
    + intros j Hj. cbn [advance calls]. rewrite <- Nat.add_assoc. apply H. simpl. lia.
Qed.

(** A provider that fails [k] times and then answers ends the loop at its
    answer. *)
Lemma retry_loop_answer n k attempt arg w out :
  k < n ->
  (forall j, j < k -> provider cfg (calls w + j) arg = None) ->
  provider cfg (calls w + k) arg = Some out ->
  retry_loop cfg n attempt arg w =
  (advance (S k) (failed_attempts k attempt arg ++ attempt_events (attempt + k) arg) w,
   Some out).
Proof.
  revert n attempt w. induction k as [|k IH]; intros n attempt w Hn Hf Hs.
  - destruct n as [|n]; [lia|]. rewrite retry_loop_eq.
    rewrite Nat.add_0_r in Hs. rewrite Hs. by rewrite Nat.add_0_r.
  - destruct n as [|n]; [lia|]. rewrite retry_loop_eq.
    rewrite <- (Nat.add_0_r (calls w)), Hf by lia.
    rewrite (IH n (S attempt)); [| lia | |].
    + rewrite advance_advance. cbn [failed_attempts].
      rewrite <- !app_assoc. cbn [app].
      by replace (attempt + S k) with (S attempt + k) by lia.
    + intros j Hj. cbn [advance calls]. rewrite <- Nat.add_assoc. apply Hf. simpl. lia.
    + cbn [advance calls]. by rewrite <- Nat.add_assoc.
Qed.

(** The loop calls the provider at most as often as it has rounds, and
    touches nothing but the call counter and the trace. *)
Lemma retry_loop_frame n attempt arg w :
  exists m evs, m <= n /\ (retry_loop cfg n attempt arg w).1 = advance m evs w.
Proof.
  revert attempt w. induction n as [|n IH]; intros attempt w.
  - exists 0, []. by rewrite advance_0_nil.
  - rewrite retry_loop_eq. destruct (provider cfg (calls w) arg).
    + exists 1, (attempt_events attempt arg). split; [lia|done].
    + destruct (IH (S attempt)
        (advance 1 (attempt_events attempt arg ++ [EvProviderError (S attempt)]) w))
        as (m & evs & Hm & ->).
      rewrite advance_advance. eexists _, _. split; [|done]. lia.
Qed.

Lemma recorded_failures_app evs evs' :
  recorded_failures (evs ++ evs') = recorded_failures evs + recorded_failures evs'.
Proof. induction evs as [|[] evs IH]; simpl; auto. Qed.

Lemma recorded_failures_attempt attempt arg :
  recorded_failures (attempt_events attempt arg) = 0.
Proof. unfold attempt_events. by destruct (0 <? attempt). Qed.

Lemma recorded_failures_failed k attempt arg :
  recorded_failures (failed_attempts k attempt arg) = k.
Proof.
  revert attempt. induction k as [|k IH]; intros attempt; [done|].
  cbn [failed_attempts]. rewrite recorded_failures_app, recorded_failures_attempt.
  simpl. by rewrite IH.
Qed.

(** ** [translate] *)

Lemma deadline_log e w :
  deadline_exceeded cfg (log e w) =
  (log e (deadline_exceeded cfg w).1, (deadline_exceeded cfg w).2).
Proof. unfold deadline_exceeded. by destruct (maxRuntime cfg =? 0)%Z. Qed.

Lemma checked_calls t w : calls (checked cfg t w) = calls w.
Proof. unfold checked, deadline_exceeded. by destruct (maxRuntime cfg =? 0)%Z. Qed.

Lemma checked_trace t w : trace (checked cfg t w) = trace w ++ [EvCacheGet t; EvCacheMiss t].
Proof.
  unfold checked, deadline_exceeded.
  destruct (maxRuntime cfg =? 0)%Z; simpl; by rewrite <- app_assoc.
Qed.

(** The short-text path. *)
Lemma translate_short t st : too_short t = true -> translate cfg t st = (st, Ok t).
Proof. intros H. destruct st as [tr w]. unfold translate. by rewrite H. Qed.

(** The cache-hit path. *)
Lemma translate_hit t tr w r :
  too_short t = false -> cacheGet t tr = Some r ->
  translate cfg t (tr, w) = (add_cachedCharCount (length t) tr, log (EvCacheGet t) w, Ok r).
Proof. intros H1 H2. unfold translate. by rewrite H1, H2. Qed.

(** The deadline path. *)
Lemma translate_late t tr w :
  too_short t = false -> cacheGet t tr = None -> ~ in_time cfg w ->
  translate cfg t (tr, w) = (tr, checked cfg t w, Raise MaxRuntimeExceeded).
Proof.
  intros H1 H2 H3. unfold translate, checked. rewrite H1, H2.
  rewrite !deadline_log. cbn [fst snd].
  unfold in_time in H3. by destruct (deadline_exceeded cfg w) as [w1 []].
Qed.

(** The provider path. *)
Lemma translate_miss t tr w :
  too_short t = false -> cacheGet t tr = None -> in_time cfg w ->
  translate cfg t (tr, w) =
  match retry_loop cfg MAX_RETRIES 0 (links2tags t).1 (checked cfg t w) with
  | (w', None) => (add_charCount (length t) tr, log (EvGiveUp t) w', Ok t)
  | (w', Some out) =>
      (cacheSet cfg t (tags2links out (links2tags t).2) (add_charCount (length t) tr),
       log (EvTranslated t (tags2links out (links2tags t).2)) w',
       Ok (tags2links out (links2tags t).2))
  end.
Proof.
  intros H1 H2 H3. unfold translate, checked. rewrite H1, H2.
  rewrite !deadline_log. cbn [fst snd].
  unfold in_time in H3. destruct (deadline_exceeded cfg w) as [w1 b]. simpl in H3. subst b.
  cbn [fst]. by destruct (links2tags t).
Qed.

End Translate.

Section TranslateClaims.
Context (cfg : Config).

(** C6: a string that keeps fewer than 5 characters once its tags and then
    the characters of the class [[0-9\s()\[\].,_-]] are removed is returned
    as it is, and the whole state (the cache, the counters, the number of
    provider calls, the trace with its lookups) is left as it was. *)
Theorem short_text_returned_untouched (t : text) (st : St) :
  length (strip_class (re_sub_tags [] t)) < 5 ->
  translate cfg t st = (st, Ok t).
Proof.
  intros H. apply translate_short. unfold too_short. by apply Nat.ltb_lt.
Qed.

Lemma retry_loop_answered n attempt arg w w1 out :
  retry_loop cfg n attempt arg w = (w1, Some out) ->
  exists k, k < n /\ calls w1 = calls w + S k /\ provider cfg (calls w + k) arg = Some out.
Proof.
  revert attempt w. induction n as [|n IH]; intros attempt w H; [done|].
  rewrite retry_loop_eq in H.
  destruct (provider cfg (calls w) arg) as [o|] eqn:E.
  - inversion H; subst. exists 0. rewrite Nat.add_0_r. split; [lia|]. split; [|done].
    simpl. lia.
  - apply IH in H as (k & Hk & Hc & Hp). exists (S k).
    cbn [advance calls] in Hc, Hp. split; [lia|]. split; [lia|].
    by replace (calls w + S k) with (calls w + 1 + k) by lia.
Qed.

Lemma retry_loop_calls_once n attempt arg w :
  calls w < calls (retry_loop cfg (S n) attempt arg w).1.
Proof.
  rewrite retry_loop_eq. destruct (provider cfg (calls w) arg).
  - simpl. lia.
  - destruct (retry_loop_frame cfg n (S attempt) arg
      (advance 1 (attempt_events attempt arg ++ [EvProviderError (S attempt)]) w))
      as (m & evs & _ & ->).
    simpl. lia.
Qed.

Lemma cacheSet_charCount k v tr : charCount (cacheSet cfg k v tr) = charCount tr.
Proof. unfold cacheSet. by destruct (disableCacheSave cfg). Qed.

(** C4: on a cache miss that passes the deadline check the provider is
    called at most [MAX_RETRIES = 5] times. When it fails [k < 5] times and
    then answers, the call returns the answer with its tags restored after
    exactly [k] recorded failures; the trace shows no sleep before the
    first attempt and the sleep [BASE_DELAY * 2^(a-1)] before each later
    attempt [a]. When it fails every time, the call returns the original
    text, not an error, after exactly 5 recorded failures. *)
Theorem retry_with_backoff (t : text) (tr tr' : Translator) (w w' : World) (res : Res text) :
  too_short t = false -> cacheGet t tr = None -> in_time cfg w ->
  translate cfg t (tr, w) = (tr', w', res) ->
  calls w' <= calls w + MAX_RETRIES /\
  (forall k out,
     k < MAX_RETRIES ->
     (forall j, j < k -> provider cfg (calls w + j) (links2tags t).1 = None) ->
     provider cfg (calls w + k) (links2tags t).1 = Some out ->
     res = Ok (tags2links out (links2tags t).2) /\
     calls w' = calls w + S k /\
     recorded_failures (trace w') = recorded_failures (trace w) + k /\
     trace w' = trace w ++ [EvCacheGet t; EvCacheMiss t]
                  ++ failed_attempts k 0 (links2tags t).1
                  ++ attempt_events k (links2tags t).1
                  ++ [EvTranslated t (tags2links out (links2tags t).2)]) /\
  ((forall j, j < MAX_RETRIES -> provider cfg (calls w + j) (links2tags t).1 = None) ->
     res = Ok t /\
     calls w' = calls w + MAX_RETRIES /\
     recorded_failures (trace w') = recorded_failures (trace w) + MAX_RETRIES /\
     trace w' = trace w ++ [EvCacheGet t; EvCacheMiss t]
                  ++ failed_attempts MAX_RETRIES 0 (links2tags t).1
                  ++ [EvGiveUp t]).
Proof.
  intros H1 H2 H3 H. rewrite translate_miss in H by done.
  split; [|split].
  - destruct (retry_loop_frame cfg MAX_RETRIES 0 (links2tags t).1 (checked cfg t w))
      as (m & evs & Hm & Hw).
    destruct (retry_loop _ _ _ _ _) as [w1 [out|]]; simpl in Hw; subst w1;
      inversion H; subst; cbn [log advance calls]; rewrite checked_calls; lia.
  - intros k out Hk Hf Hs.
    rewrite (retry_loop_answer cfg MAX_RETRIES k 0 _ _ out) in H;
      [|done|by intros; rewrite checked_calls; auto|by rewrite checked_calls].
    inversion H; subst. cbn [log advance calls trace].
    rewrite checked_calls, checked_trace.
    split; [done|]. split; [done|]. split.
    + rewrite !recorded_failures_app, recorded_failures_failed, recorded_failures_attempt.
      simpl. lia.
    + by rewrite <- !app_assoc.
  - intros Hf.
    rewrite (retry_loop_exhausted cfg MAX_RETRIES 0) in H
      by (intros; rewrite checked_calls; auto).
    inversion H; subst. cbn [log advance calls trace].
    rewrite checked_calls, checked_trace.
    split; [done|]. split; [done|]. split.
    + rewrite !recorded_failures_app. simpl. unfold MAX_RETRIES. lia.
    + by rewrite <- !app_assoc.
Qed.

(** C9, amended: the provider character counter grows by the length of the
    source text on every call that reaches the provider stage, that is, on
    every cache miss of a text that is not too short while the deadline has
    not passed; it grows before the first attempt and whatever the attempts
    yield, so a call whose attempts all fail increases it as a successful
    call does. On the short-text, cache-hit and deadline paths it is
    unchanged. *)
Theorem charCount_counts_every_miss (t : text) (tr tr' : Translator) (w w' : World)
    (res : Res text) :
  translate cfg t (tr, w) = (tr', w', res) ->
  charCount tr' =
  charCount tr +
  (if too_short t then 0
   else match cacheGet t tr with
        | Some _ => 0
        | None => if (deadline_exceeded cfg w).2 then 0 else length t
        end).
Proof.
  intros H. destruct (too_short t) eqn:H1.
  - rewrite translate_short in H by done. inversion H; subst. lia.
  - destruct (cacheGet t tr) as [r|] eqn:H2.
    + rewrite (translate_hit cfg t tr w r) in H by done. inversion H; subst. simpl. lia.
    + destruct (deadline_exceeded cfg w).2 eqn:H3.
      * rewrite translate_late in H; [|done|done|by unfold in_time; rewrite H3].
        inversion H; subst. lia.
      * rewrite translate_miss in H by done.
        destruct (retry_loop _ _ _ _ _) as [w1 [out|]]; inversion H; subst;
          by rewrite ?cacheSet_charCount.
Qed.

(** C10: a call of [translate] that does not end in a successful provider
    call (no provider call was made, or the last one failed) leaves the
    cache mapping and the dirty flag as they were; after a miss, the text
    is therefore still absent from the cache, and a later call for it, made
    in time, calls the provider again. *)
Theorem failed_translation_leaves_cache (t : text) (tr tr' : Translator) (w w' : World)
    (res : Res text) :
  translate cfg t (tr, w) = (tr', w', res) ->
  (calls w' = calls w \/ provider cfg (calls w' - 1) (links2tags t).1 = None) ->
  cacheData tr' = cacheData tr /\
  cacheDirty tr' = cacheDirty tr /\
  (too_short t = false -> cacheGet t tr = None ->
   cacheGet t tr' = None /\
   forall w2, in_time cfg w2 -> calls w2 < calls (translate cfg t (tr', w2)).1.2).
Proof.
  intros H Hfail.
  assert (cacheData tr' = cacheData tr /\ cacheDirty tr' = cacheDirty tr) as [Hd Hf].
  { destruct (too_short t) eqn:H1.
    { rewrite translate_short in H by done. by inversion H. }
    destruct (cacheGet t tr) as [r|] eqn:H2.
    { rewrite (translate_hit cfg t tr w r) in H by done. by inversion H. }
    destruct (deadline_exceeded cfg w).2 eqn:H3.
    { rewrite translate_late in H; [|done|done|by unfold in_time; rewrite H3].
      by inversion H. }
    rewrite translate_miss in H by done.
    destruct (retry_loop _ _ _ _ _) as [w1 [out|]] eqn:E; [|by inversion H].
    apply retry_loop_answered in E as (k & Hk & Hc & Hp).
    rewrite checked_calls in Hc, Hp.
    inversion H; subst. cbn [log calls] in Hfail. rewrite Hc in Hfail.
    destruct Hfail as [Hfail|Hfail]; [lia|].
    replace (calls w + S k - 1) with (calls w + k) in Hfail by lia. congruence. }
  split; [done|]. split; [done|].
  intros H1 H2.
  assert (cacheGet t tr' = None) as H2' by (unfold cacheGet in *; by rewrite Hd).
  split; [done|]. intros w2 Hw2.
  rewrite translate_miss by done.
  pose proof (retry_loop_calls_once 4 0 (links2tags t).1 (checked cfg t w2)) as Hc.
  rewrite checked_calls in Hc. change (S 4) with MAX_RETRIES in Hc.
  by destruct (retry_loop _ _ _ _ _) as [w1 [out|]].
Qed.

(** C2, amended: when cache writing is enabled ([disableCacheSave] is
    false), translation of an exact source text is idempotent: once a call
    on a text has obtained an answer from the provider, a second call on
    the same text with that cache returns the same result, is a cache hit
    (it only adds to the cached-character counter) and makes no provider
    call, in whatever state the provider is by then. *)
Theorem translate_idempotent (t : text) (tr : Translator) (w w2 : World) (k : nat) (out : text) :
  disableCacheSave cfg = false ->
  too_short t = false -> cacheGet t tr = None -> in_time cfg w ->
  k < MAX_RETRIES ->
  (forall j, j < k -> provider cfg (calls w + j) (links2tags t).1 = None) ->
  provider cfg (calls w + k) (links2tags t).1 = Some out ->
  exists tr1 w1 r,
    translate cfg t (tr, w) = (tr1, w1, Ok r) /\
    translate cfg t (tr1, w2) =
      (add_cachedCharCount (length t) tr1, log (EvCacheGet t) w2, Ok r) /\
    calls (translate cfg t (tr1, w2)).1.2 = calls w2.
Proof.
  intros Hen H1 H2 H3 Hk Hf Hs.
  rewrite translate_miss by done.
  rewrite (retry_loop_answer cfg MAX_RETRIES k 0 _ _ out);
    [|done|by intros; rewrite checked_calls; auto|by rewrite checked_calls].
  eexists _, _, _. split; [done|].
  assert (forall r tr0, cacheGet t (cacheSet cfg t r tr0) = Some r) as Hget.
  { intros r tr0. unfold cacheGet, cacheSet. rewrite Hen. simpl.
    apply lookup_insert_eq. }
  rewrite (translate_hit cfg t _ w2 _ H1 (Hget _ _)). done.
Qed.

End TranslateClaims.

Lemma short_text_returned_untouched_witness :
  translate (stub numbered false) (txt "+2 {@dice 1d6} (12)") (service0, world0)
  = (service0, world0, Ok (txt "+2 {@dice 1d6} (12)")).
Proof.
  apply (short_text_returned_untouched (stub numbered false)).
  vm_compute. lia.
Defined.

(** The scenario of the specification: four failures, then an answer. The
    sleeps before the attempts 1 to 4 last 1, 2, 4 and 8 seconds. *)
Lemma retry_with_backoff_witness :
  (translate (stub (fails_then_answers 4) false) sample (service0, world0)).2
    = Ok (txt "IT Stacks with {bonus}") /\
  recorded_failures
    (trace (translate (stub (fails_then_answers 4) false) sample (service0, world0)).1.2) = 4 /\
  trace (translate (stub (fails_then_answers 4) false) sample (service0, world0)).1.2 =
    [EvCacheGet sample; EvCacheMiss sample;
     EvProviderCall (txt "Stacks with (%0%)"); EvProviderError 1;
     EvSleep 1; EvProviderCall (txt "Stacks with (%0%)"); EvProviderError 2;
     EvSleep 2; EvProviderCall (txt "Stacks with (%0%)"); EvProviderError 3;
     EvSleep 4; EvProviderCall (txt "Stacks with (%0%)"); EvProviderError 4;
     EvSleep 8; EvProviderCall (txt "Stacks with (%0%)");
     EvTranslated sample (txt "IT Stacks with {bonus}")].
Proof.
  destruct (translate (stub (fails_then_answers 4) false) sample (service0, world0))
    as [[tr' w'] res] eqn:E.
  destruct (retry_with_backoff (stub (fails_then_answers 4) false) sample service0 tr'
              world0 w' res eq_refl eq_refl eq_refl E) as (_ & Hk & _).
  destruct (Hk 4 (txt "IT Stacks with (%0%)")) as (Hres & _ & Hrec & Htrace).
  - unfold MAX_RETRIES. lia.
  - intros j Hj. do 4 (destruct j as [|j]; [by vm_compute|]). lia.
  - by vm_compute.
  - cbn [fst snd]. rewrite Hres, Hrec, Htrace. by vm_compute.
Defined.

(** C9, as stated, fails: with a provider that fails at every attempt the
    call returns the text untranslated after 5 recorded failures, and the
    provider character counter has still grown from 0 to the 19 characters
    of the text. *)
Lemma charCount_grows_when_all_attempts_fail :
  (translate (stub always_fails false) sample (service0, world0)).2 = Ok sample /\
  recorded_failures (trace (translate (stub always_fails false) sample (service0, world0)).1.2)
    = 5 /\
  charCount service0 = 0 /\
  charCount (translate (stub always_fails false) sample (service0, world0)).1.1 = 19.
Proof. by vm_compute. Qed.

Lemma charCount_counts_every_miss_witness :
  charCount (translate (stub always_fails false) sample (service0, world0)).1.1 = 0 + 19.
Proof.
  destruct (translate (stub always_fails false) sample (service0, world0))
    as [[tr' w'] res] eqn:E.
  exact (charCount_counts_every_miss (stub always_fails false) sample service0 tr'
           world0 w' res E).
Defined.

Lemma failed_translation_leaves_cache_witness :
  cacheData (translate (stub always_fails false) sample (service0, world0)).1.1 = ∅ /\
  cacheDirty (translate (stub always_fails false) sample (service0, world0)).1.1 = false.
Proof.
  destruct (translate (stub always_fails false) sample (service0, world0))
    as [[tr' w'] res] eqn:E.
  destruct (failed_translation_leaves_cache (stub always_fails false) sample service0 tr'
              world0 w' res E (or_intror eq_refl)) as (Hd & Hf & _).
  by split.
Defined.

(** C2, as stated, fails: with cache writing disabled ([--nocache]) the
    first answer is not stored, so the second call on the same text, with
    the cache unchanged, calls the provider again and returns its second,
    different answer. *)
Lemma translate_not_idempotent_without_cache_writes :
  (translate (stub numbered true) sample (service0, world0)).2
    = Ok (txt "0: Stacks with {bonus}") /\
  cacheData (translate (stub numbered true) sample (service0, world0)).1.1
    = cacheData service0 /\
  (translate (stub numbered true) sample
     (translate (stub numbered true) sample (service0, world0)).1).2
    = Ok (txt "1: Stacks with {bonus}") /\
  calls (translate (stub numbered true) sample
           (translate (stub numbered true) sample (service0, world0)).1).1.2 = 2.
Proof. by vm_compute. Qed.

Lemma translate_idempotent_witness :
  exists tr1 w1 r,
    translate (stub numbered false) sample (service0, world0) = (tr1, w1, Ok r) /\
    translate (stub numbered false) sample (tr1, advance 7 [] world0) =
      (add_cachedCharCount (length sample) tr1,
       log (EvCacheGet sample) (advance 7 [] world0), Ok r) /\
    calls (translate (stub numbered false) sample (tr1, advance 7 [] world0)).1.2
      = calls (advance 7 [] world0).
Proof.
  apply (translate_idempotent (stub numbered false) sample service0 world0
           (advance 7 [] world0) 0 (txt "0: Stacks with (%0%)")).
  - done.
  - by vm_compute.
  - done.
  - done.
  - unfold MAX_RETRIES. lia.
  - intros j Hj. lia.
  - by vm_compute.
Defined.

(** ** The walker *)

Section Walker.
Context (cfg : Config).

Lemma translate_data_list l st :
  translate_data cfg (JList l) st = then_wrap JList (for_each (translate_data cfg) l st).
Proof. done. Qed.

Lemma translate_data_dict d st :
  translate_data cfg (JDict d) st =
  then_wrap JDict (walk_fields cfg (translate_data cfg) [] d st).
Proof. done. Qed.

Lemma then_wrap_ok {A B} (f : A -> B) (r : St * Res A) st (y : B) :
  then_wrap f r = (st, Ok y) -> exists x, r = (st, Ok x) /\ y = f x.
Proof.
  destruct r as [st0 [x|e]]; unfold then_wrap; simpl; intros H; inversion H; subst.
  by exists x.
Qed.

(** A loop that ends normally has handled every element. *)
Lemma for_each_Forall2 {A B} (body : A -> St -> St * Res B) l st st' l' :
  for_each body l st = (st', Ok l') ->
  Forall2 (fun x y => exists s1 s2, body x s1 = (s2, Ok y)) l l'.
Proof.
  revert st l'. induction l as [|x l IH]; intros st l' H; simpl in H.
  - inversion H. constructor.
  - destruct (body x st) as [s1 [y|e]] eqn:E; [|done].
    destruct (for_each body l s1) as [s2 [l''|e]] eqn:E'; [|done].
    inversion H; subst. constructor; eauto.
Qed.

(** The second pass over a nested list is the generic walk of the list the
    first pass left. *)
Lemma walk_again_generic els els1 st :
  Forall2 (fun x x1 => exists s1 s2, translate_long cfg x s1 = (s2, Ok x1)) els els1 ->
  walk_again (translate_data cfg) els els1 st = for_each (translate_data cfg) els1 st.
Proof.
  intros H. revert st. induction H as [|x x1 els els1 (s1 & s2 & Hx) _ IH]; intros st; [done|].
  cbn [walk_again for_each].
  assert ((match x with JStr _ => (st, Ok x1) | _ => translate_data cfg x st end)
          = translate_data cfg x1 st) as ->.
  { destruct x as [| | |s| |]; simpl in Hx; try (inversion Hx; subst; done).
    destruct (2 <? length s).
    - apply then_wrap_ok in Hx as (out & _ & ->). done.
    - by inversion Hx. }
  destruct (translate_data cfg x1 st) as [st1 [y|e]]; [|done].
  by rewrite IH.
Qed.

(** The body of the loop over a named list, for an element that is a list,
    as the source has it: the strings of more than two characters are
    replaced, then [translate_data] is called on the list. *)
Lemma walk_entry_list els st :
  walk_entry cfg (translate_data cfg) (JList els) st =
  match for_each (translate_long cfg) els st with
  | (st1, Ok els') => translate_data cfg (JList els') st1
  | (st1, Raise e) => (st1, Raise e)
  end.
Proof.
  cbn [walk_entry].
  destruct (for_each (translate_long cfg) els st) as [st1 [els'|e]] eqn:E; [|done].
  rewrite translate_data_list. f_equal.
  apply walk_again_generic. by eapply for_each_Forall2.
Qed.

(** A loop that ends normally has handled its elements in turn, each from
    the state the one before it left. *)
Lemma for_each_threaded {A B} (body : A -> St -> St * Res B) l st st' l' :
  for_each body l st = (st', Ok l') ->
  threaded (fun x s s' y => body x s = (s', Ok y)) l st st' l'.
Proof.
  revert st l'. induction l as [|x l IH]; intros st l' H; simpl in H.
  - by inversion H.
  - destruct (body x st) as [s1 [y|e]] eqn:E; [|done].
    destruct (for_each body l s1) as [s2 [l''|e]] eqn:E'; [|done].
    inversion H; subst. exists s1. split; [done|]. by apply IH.
Qed.

Lemma threaded_impl {A B} (rule rule' : A -> St -> St -> B -> Prop) l st st' l' :
  (forall x s s' y, rule x s s' y -> rule' x s s' y) ->
  threaded rule l st st' l' -> threaded rule' l st st' l'.
Proof.
  intros Himpl. revert st l'. induction l as [|x l IH]; intros st [|y l'] H; try done.
  destruct H as (s1 & Hx & Hl). exists s1. split; [by apply Himpl|by apply IH].
Qed.

Lemma translate_long_rule x s s' y :
  translate_long cfg x s = (s', Ok y) -> sub_element_rule cfg x s s' y.
Proof.
  intros H. destruct x as [| | |t| |]; simpl in H |- *; try (by inversion H).
  destruct (2 <? length t).
  - apply then_wrap_ok in H as (out & H & ->). by exists out.
  - by inversion H.
Qed.

Lemma translate_data_rule x s s' y :
  translate_data cfg x s = (s', Ok y) -> generic_element_rule cfg x s s' y.
Proof. intros H. destruct x; simpl in H |- *; try done; by inversion H. Qed.

Lemma walk_entry_rule x s s' y :
  walk_entry cfg (translate_data cfg) x s = (s', Ok y) -> nested_list_rule cfg x s s' y.
Proof.
  intros H. destruct x as [| | | |els|]; try done.
  rewrite walk_entry_list in H. cbn [nested_list_rule].
  destruct (for_each (translate_long cfg) els s) as [s1 [els1|e]] eqn:E1; [|done].
  pose proof H as Hw. rewrite translate_data_list in Hw.
  apply then_wrap_ok in Hw as (els2 & Hw & ->).
  exists els1, s1, els2. repeat split; [|done|].
  - eapply threaded_impl; [|by apply for_each_threaded]. apply translate_long_rule.
  - eapply threaded_impl; [|by apply for_each_threaded]. apply translate_data_rule.
Qed.

(** C7, amended: in a named sequence field that is walked, the elements
    are handled in turn, each from the state the one before it left. An
    element that is itself a sequence first has its string sub-elements of
    more than two characters replaced, in turn, by what [translate]
    returns for them, its strings of at most two characters, numbers,
    booleans, nulls, sequences and mappings being left as they are; the
    nested sequence is then walked as a generic node, which leaves its
    strings, numbers, booleans and nulls as they are and walks its
    sequences and mappings by the generic rules, which may change them. *)
Theorem nested_sequence_rule (data : list (text * json)) (k : text) (l : list json)
    (st st' : St) (v' : json) :
  key_in k named_fields = true ->
  bool_decide (k = txt "items") && type_is_not_list data = false ->
  walk_field cfg (translate_data cfg) data k (JList l) st = (st', Ok v') ->
  exists l', v' = JList l' /\ threaded (nested_list_rule cfg) l st st' l'.
Proof.
  intros Hk Hskip H. cbn [walk_field] in H. rewrite Hk, Hskip in H.
  apply then_wrap_ok in H as (l' & H & ->). exists l'. split; [done|].
  eapply threaded_impl; [|by apply for_each_threaded]. apply walk_entry_rule.
Qed.

End Walker.

(** In [{"rows": [["ab", "Fire Bolt", 3]]}] the nested list has its long
    string translated and the rest left alone. *)
Lemma nested_sequence_rule_witness :
  exists l',
    JList [JList [JStr (txt "ab"); JStr (txt "IT Fire Bolt"); JNum 3]] = JList l' /\
    threaded (nested_list_rule (stub answers false))
      [JList [JStr (txt "ab"); JStr (txt "Fire Bolt"); JNum 3]]
      (service0, world0)
      (walk_field (stub answers false) (translate_data (stub answers false))
         [(txt "rows", JList [JList [JStr (txt "ab"); JStr (txt "Fire Bolt"); JNum 3]])]
         (txt "rows") (JList [JList [JStr (txt "ab"); JStr (txt "Fire Bolt"); JNum 3]])
         (service0, world0)).1
      l'.
Proof.
  eapply (nested_sequence_rule (stub answers false)
    [(txt "rows", JList [JList [JStr (txt "ab"); JStr (txt "Fire Bolt"); JNum 3]])]
    (txt "rows") [JList [JStr (txt "ab"); JStr (txt "Fire Bolt"); JNum 3]]
    (service0, world0)).
  - by vm_compute.
  - by vm_compute.
  - vm_compute. reflexivity.
Defined.

(** C7, as stated, fails: a sub-element that is a mapping is not left
    untouched. In [{"rows": [[{"entry": "A spell of great power"}]]}] the
    nested list holds no string, and its mapping still comes back with its
    [entry] translated, because the nested list is walked as a generic node
    after its strings have been handled. *)
Lemma nested_mapping_is_walked :
  (translate_data (stub answers false)
     (JDict [(txt "rows",
              JList [JList [JDict [(txt "entry", JStr (txt "A spell of great power"))]]])])
     (service0, world0)).2
  = Ok (JDict [(txt "rows",
                JList [JList [JDict [(txt "entry",
                                      JStr (txt "IT A spell of great power"))]]])]) /\
  JDict [(txt "entry", JStr (txt "IT A spell of great power"))]
    <> JDict [(txt "entry", JStr (txt "A spell of great power"))].
Proof. split; [by vm_compute|discriminate]. Qed.

Section Mapping.
Context (cfg : Config).

Lemma walk_field_same_for_type data k v st st' v' :
  walk_field cfg (translate_data cfg) data k v st = (st', Ok v') ->
  same_for_type (k, v) (k, v').
Proof.
  intros H. split; [done|]. cbn [fst snd]. intros ->.
  destruct v as [| | |s|l|d]; cbn [walk_field] in H.
  - by inversion H.
  - by inversion H.
  - by inversion H.
  - change (key_in (txt "type") [txt "entry"; txt "effect"]) with false in H.
    by inversion H.
  - change (key_in (txt "type") named_fields) with false in H.
    rewrite translate_data_list in H. by apply then_wrap_ok in H as (? & _ & ->).
  - change (bool_decide (txt "type" = txt "other")) with false in H.
    rewrite translate_data_dict in H. by apply then_wrap_ok in H as (? & _ & ->).
Qed.

Lemma same_for_type_refl kv : same_for_type kv kv.
Proof. by split. Qed.

(** The test on [type] gives the same answer on the mapping as it was and
    on the mapping as the walk has left it so far. *)
Lemma type_is_not_list_same d d' :
  Forall2 same_for_type d d' -> type_is_not_list d = type_is_not_list d'.
Proof.
  unfold type_is_not_list.
  induction 1 as [|[k v] [k' v'] d d' [Hk Hv] _ IH]; [done|].
  cbn [fst snd] in Hk, Hv. subst k'. cbn [assoc].
  destruct (bool_decide (txt "type" = k)) eqn:E; [|done].
  apply bool_decide_eq_true in E. specialize (Hv (eq_sym E)).
  destruct v, v'; simpl in Hv; try done. by inversion Hv.
Qed.

Lemma walk_fields_result rec done todo st st' dd :
  walk_fields cfg rec done todo st = (st', Ok dd) ->
  exists todo',
    dd = done ++ todo' /\
    Forall2 (fun kv kv' =>
               kv.1 = kv'.1 /\
               exists data s1 s2, walk_field cfg rec data kv.1 kv.2 s1 = (s2, Ok kv'.2))
            todo todo'.
Proof.
  revert done st. induction todo as [|[k v] todo IH]; intros done st H.
  - inversion H; subst. exists []. by rewrite app_nil_r.
  - cbn [walk_fields] in H.
    destruct (walk_field cfg rec (done ++ (k, v) :: todo) k v st) as [s1 [v'|e]] eqn:E; [|done].
    apply IH in H as (todo' & -> & HF).
    exists ((k, v') :: todo'). split; [by rewrite <- app_assoc|].
    constructor; [|done]. split; [done|]. cbn [fst snd]. eauto.
Qed.

(** The walk of a mapping, cut at one of its fields. *)
Lemma walk_fields_app rec done d1 k v d2 st st' dd :
  walk_fields cfg rec done (d1 ++ (k, v) :: d2) st = (st', Ok dd) ->
  exists d1' st1 st2 v',
    Forall2 (fun kv kv' =>
               kv.1 = kv'.1 /\
               exists data s1 s2, walk_field cfg rec data kv.1 kv.2 s1 = (s2, Ok kv'.2))
            d1 d1' /\
    walk_field cfg rec (done ++ d1' ++ (k, v) :: d2) k v st1 = (st2, Ok v') /\
    walk_fields cfg rec (done ++ d1' ++ [(k, v')]) d2 st2 = (st', Ok dd).
Proof.
  revert done st. induction d1 as [|[k0 v0] d1 IH]; intros done st H.
  - cbn [app walk_fields] in H.
    destruct (walk_field cfg rec (done ++ (k, v) :: d2) k v st) as [s1 [v'|e]] eqn:E; [|done].
    exists [], st, s1, v'. by repeat split.
  - cbn [app walk_fields] in H.
    destruct (walk_field cfg rec (done ++ (k0, v0) :: d1 ++ (k, v) :: d2) k0 v0 st)
      as [s1 [v0'|e]] eqn:E; [|done].
    apply IH in H as (d1' & st1 & st2 & v' & HF & Hf & Hrest).
    exists ((k0, v0') :: d1'), st1, st2, v'.
    rewrite <- !app_assoc in Hf, Hrest. cbn [app] in Hf, Hrest.
    repeat split; [|done|done].
    constructor; [|done]. split; [done|]. cbn [fst snd]. eauto.
Qed.

(** C5, amended: a mapping's field [items] that holds a sequence is skipped
    as a whole (its value is left as it is and nothing is translated for
    it: the fields after it are walked in the state [st1] in which it was
    reached) exactly when the mapping's own [type] field is absent or not
    equal to ["list"]; when [type] is present and equal to ["list"], the
    elements of [items] are processed under the sequence-field rules. *)
Theorem items_walked_only_for_list_type (d1 d2 : list (text * json)) (l : list json)
    (st st' : St) (d' : json) :
  translate_data cfg (JDict (d1 ++ (txt "items", JList l) :: d2)) st = (st', Ok d') ->
  exists d1' d2' v' st1 st2,
    d' = JDict (d1' ++ (txt "items", v') :: d2') /\
    length d1' = length d1 /\
    walk_field cfg (translate_data cfg) (d1' ++ (txt "items", JList l) :: d2)
      (txt "items") (JList l) st1 = (st2, Ok v') /\
    walk_fields cfg (translate_data cfg) (d1' ++ [(txt "items", v')]) d2 st2
      = (st', Ok (d1' ++ (txt "items", v') :: d2')) /\
    if type_is_not_list (d1 ++ (txt "items", JList l) :: d2)
    then v' = JList l /\ st2 = st1
    else exists l',
           for_each (walk_entry cfg (translate_data cfg)) l st1 = (st2, Ok l') /\
           v' = JList l'.
Proof.
  intros H. rewrite translate_data_dict in H.
  apply then_wrap_ok in H as (dd & H & ->).
  apply walk_fields_app in H as (d1' & st1 & st2 & v' & HF & Hf & Hrest).
  cbn [app] in Hf, Hrest.
  pose proof Hrest as Hres. apply walk_fields_result in Hres as (d2' & -> & _).
  rewrite <- app_assoc in Hrest |- *. cbn [app] in Hrest |- *.
  exists d1', d2', v', st1, st2.
  split; [done|]. split; [symmetry; by eapply Forall2_length|].
  split; [done|]. split; [done|].
  assert (type_is_not_list (d1 ++ (txt "items", JList l) :: d2)
          = type_is_not_list (d1' ++ (txt "items", JList l) :: d2)) as ->.
  { apply type_is_not_list_same. apply Forall2_app.
    - eapply Forall2_impl; [exact HF|].
      intros [k v] [k' w] [Hk (data & s1 & s2 & Hw)]. cbn [fst snd] in *. subst k'.
      by eapply walk_field_same_for_type.
    - apply Forall2_same_length_lookup_2; [done|].
      intros i x y Hx Hy. rewrite Hx in Hy. inversion Hy. apply same_for_type_refl. }
  cbn [walk_field] in Hf.
  change (key_in (txt "items") named_fields) with true in Hf.
  change (bool_decide (txt "items" = txt "items")) with true in Hf.
  cbn [andb] in Hf.
  destruct (type_is_not_list (d1' ++ (txt "items", JList l) :: d2)).
  - by inversion Hf.
  - apply then_wrap_ok in Hf as (l' & Hl' & ->). by exists l'.
Qed.

End Mapping.

(** C5, as stated, fails: with no [type] field at all the field [items] is
    skipped, not processed. The walk of [{"items": ["Fire Bolt"]}] changes
    neither the document nor the state, whereas the sequence-field rules
    would have translated the element. *)
Lemma items_skipped_when_type_absent :
  translate_data (stub answers false)
    (JDict [(txt "items", JList [JStr (txt "Fire Bolt")])]) (service0, world0)
  = (service0, world0, Ok (JDict [(txt "items", JList [JStr (txt "Fire Bolt")])])) /\
  (for_each (walk_entry (stub answers false) (translate_data (stub answers false)))
     [JStr (txt "Fire Bolt")] (service0, world0)).2
  = Ok [JStr (txt "IT Fire Bolt")].
Proof. split; by vm_compute. Qed.

(** The traversal scenario of the specification: [type] is ["list"], so
    [items] is processed. *)
Lemma items_walked_only_for_list_type_witness :
  exists d1' d2' v' st1 st2 l',
    JDict [(txt "type", JStr (txt "list"));
           (txt "items", JList [JStr (txt "IT Fire Bolt"); JStr (txt "IT Ice Shard")]);
           (txt "entry", JStr (txt "IT A spell of great power"))]
    = JDict (d1' ++ (txt "items", v') :: d2') /\
    length d1' = 1 /\
    for_each (walk_entry (stub answers false) (translate_data (stub answers false)))
      [JStr (txt "Fire Bolt"); JStr (txt "Ice Shard")] st1 = (st2, Ok l') /\
    v' = JList l'.
Proof.
  edestruct (items_walked_only_for_list_type (stub answers false)
               [(txt "type", JStr (txt "list"))]
               [(txt "entry", JStr (txt "A spell of great power"))]
               [JStr (txt "Fire Bolt"); JStr (txt "Ice Shard")]
               (service0, world0))
    as (d1' & d2' & v' & st1 & st2 & Hd & Hlen & _ & _ & Hif).
  - vm_compute. reflexivity.
  - change (type_is_not_list _) with false in Hif.
    destruct Hif as (l' & Hl' & Hv).
    exists d1', d2', v', st1, st2, l'. repeat split; done.
Defined.

(** ** Closing the cache scope *)



(** ** The driver *)

(** Past the deadline, a cache miss raises. *)
Lemma translate_raises_past_deadline (cfg : Config) (t : text) (tr : Translator) (w : World) :
  too_short t = false -> cacheGet t tr = None ->
  (deadline_exceeded cfg w).2 = true ->
  (translate cfg t (tr, w)).2 = Raise MaxRuntimeExceeded.
Proof.
  intros H1 H2 H3. rewrite translate_late; [done|done|done|].
  unfold in_time. by rewrite H3.
Qed.

(** C1, on the code: the scenario of the specification. The second
    translation call of the first document raises the deadline exception;
    [translate_file] catches it, reports it, closes the cache scope and
    writes the output; the run then goes on to the second document, whose
    entry is served from its cache and written out, and ends normally. *)
Theorem run_goes_on_after_deadline :
  (main late_cfg (txt "it") true [txt "data/a.json"; txt "data/b.json"] late_world).2
    = Ok tt /\
  trace (main late_cfg (txt "it") true [txt "data/a.json"; txt "data/b.json"] late_world).1
    = [EvFileHeader 1 (txt "data/a.json");
       EvCacheGet (txt "A spell of great power");
       EvCacheMiss (txt "A spell of great power");
       EvProviderCall (txt "A spell of great power");
       EvTranslated (txt "A spell of great power") (txt "IT A spell of great power");
       EvCacheGet (txt "Deals fire damage");
       EvCacheMiss (txt "Deals fire damage");
       EvFileError (txt "data/a.json") MaxRuntimeExceeded;
       EvStats 0 22;
       EvSaveCache (txt "translation/cache/it/a.json");
       EvWriteTemp (txt "translation/cache/it/a.json.swp");
       EvRename (txt "translation/cache/it/a.json.swp") (txt "translation/cache/it/a.json");
       EvWriteOutput (txt "data.it/a.json");
       EvFileHeader 2 (txt "data/b.json");
       EvCacheGet (txt "Stacks with {bonus}");
       EvStats 19 0;
       EvWriteOutput (txt "data.it/b.json");
       EvComplete 2 2 22] /\
  output_files
    (main late_cfg (txt "it") true [txt "data/a.json"; txt "data/b.json"] late_world).1
    !! txt "data.it/b.json"
    = Some (OutJson (JDict [(txt "entry", JStr (txt "Si somma a {bonus}"))])).
Proof. repeat split; by vm_compute. Qed.

(** * Further properties of the code *)

(** ** TagCodec *)

Lemma blocked_scan_close (r X : text) : blocked r = true -> scan_close (r ++ X) = None.
Proof.
  induction r as [|c r IH]; [done|]. simpl.
  destruct (Ascii.eqb c "}"); [done|]. destruct (Ascii.eqb c LF); [done|].
  intros H. by rewrite IH.
Qed.

(** Nothing matches in a closed text, and it hides no match of what
    follows it. *)
Lemma search_closed_app (P s : text) :
  closed P -> search s = None -> search (P ++ s) = None.
Proof.
  induction P as [|c P IH]; [done|]. intros [Hc HP] Hs.
  cbn [app search match_tag].
  destruct (Ascii.eqb_spec c "{") as [->|_].
  - rewrite blocked_scan_close by auto. by rewrite IH.
  - by rewrite IH.
Qed.

Lemma search_placeholders (segs : list (text * text)) (last P : text) (c : nat) :
  closed P -> Forall good_seg segs -> search last = None ->
  search (P ++ placeholders c segs last) = None.
Proof.
  intros HP Hs Hl. revert P c HP.
  induction Hs as [|[g t] segs [Hg _] _ IH]; intros P c HP.
  - by apply search_closed_app.
  - cbn [placeholders]. simpl in Hg.
    replace (P ++ g ++ marker c ++ placeholders (S c) segs last)
      with ((P ++ g ++ marker c) ++ placeholders (S c) segs last)
      by by rewrite <- !app_assoc.
    apply IH. apply closed_app; [done|]. apply closed_app; [done|].
    apply closed_no_brace, marker_no_brace.
Qed.

Lemma search_gaps (repl : text) (segs : list (text * text)) (last P : text) :
  Forall (fun c => c <> "{"%char) repl ->
  closed P -> Forall good_seg segs -> search last = None ->
  search (P ++ foldr (fun '(gap, _) acc => gap ++ repl ++ acc) last segs) = None.
Proof.
  intros Hr HP Hs Hl. revert P HP.
  induction Hs as [|[g t] segs [Hg _] _ IH]; intros P HP.
  - by apply search_closed_app.
  - cbn [foldr]. simpl in Hg.
    replace (P ++ g ++ repl ++ foldr (fun '(gap, _) acc => gap ++ repl ++ acc) last segs)
      with ((P ++ g ++ repl) ++ foldr (fun '(gap, _) acc => gap ++ repl ++ acc) last segs)
      by by rewrite <- !app_assoc.
    apply IH. apply closed_app; [done|]. apply closed_app; [done|].
    by apply closed_no_brace.
Qed.

Lemma finditer_nomatch (s : text) : search s = None -> finditer s = [].
Proof. intros H. unfold finditer. by rewrite re_scan_nomatch. Qed.

(** [links2tags] cuts the text at its tag matches. The text is gaps and
    tags in turn, followed by a tail: in a gap no tag can start, whatever
    follows the gap; a tag is an opening brace, a body free of closing
    braces and line feeds, and a closing brace; the tail holds no tag. The
    links are these tags in order, and the returned text is the same gaps
    and tail with the i-th marker in place of the i-th tag. So, although
    each step replaces the leftmost occurrence of the matched text, it
    always hits the match itself. *)
Theorem links2tags_cuts_at_tags (t : text) :
  exists segs last,
    t = flatten segs last /\
    Forall (fun gt => closed gt.1 /\ is_tag gt.2) segs /\
    finditer last = [] /\
    links2tags t = (placeholders 0 segs last, segs.*2).
Proof.
  destruct (re_scan_spec t) as (Ht & Hgood & Hlast).
  exists (re_scan t).1, (re_scan t).2. split; [done|]. split; [exact Hgood|]. split.
  - by apply finditer_nomatch.
  - by rewrite links2tags_spec.
Qed.

Lemma placeholder_text_no_tag (t : text) : finditer (links2tags t).1 = [].
Proof.
  rewrite links2tags_spec. cbn [fst].
  destruct (re_scan_spec t) as (_ & Hgood & Hlast).
  apply finditer_nomatch.
  by apply (search_placeholders _ _ [] 0 I).
Qed.

(** The text [links2tags] hands to the provider holds no tag any more. *)
Theorem links2tags_leaves_no_tag (t : text) : finditer (links2tags t).1 = [].
Proof. apply placeholder_text_no_tag. Qed.

(** [re.sub(TAG_REGEX, "", text)] leaves a text without tags, so removing
    the tags a second time changes nothing. *)
Theorem re_sub_tags_idempotent (t : text) :
  finditer (re_sub_tags [] t) = [] /\
  re_sub_tags [] (re_sub_tags [] t) = re_sub_tags [] t.
Proof.
  destruct (re_scan_spec t) as (_ & Hgood & Hlast).
  assert (search (re_sub_tags [] t) = None) as H.
  { unfold re_sub_tags. by apply (search_gaps [] _ _ [] (Forall_nil_2 _) I). }
  split; [by apply finditer_nomatch|].
  unfold re_sub_tags at 1. by rewrite (re_scan_nomatch _ H).
Qed.

Lemma search_no_brace (s : text) : "{"%char ∉ s -> search s = None.
Proof.
  induction s as [|c s IH]; [done|]. intros H.
  apply not_elem_of_cons in H as [Hc Hs]. cbn [search match_tag].
  destruct (Ascii.eqb_spec c "{") as [->|_]; [done|]. by rewrite IH.
Qed.

(** A text without an opening brace has no tag: it is handed to the
    provider as it is, with no link to restore. *)
Theorem links2tags_without_brace (t : text) :
  "{"%char ∉ t -> links2tags t = (t, []) /\ re_sub_tags [] t = t.
Proof.
  intros H. apply search_no_brace in H.
  unfold links2tags, re_sub_tags, finditer. by rewrite (re_scan_nomatch _ H).
Qed.

Lemma links2tags_without_brace_witness :
  links2tags (txt "Deals 1d6 damage") = (txt "Deals 1d6 damage", []) /\
  re_sub_tags [] (txt "Deals 1d6 damage") = txt "Deals 1d6 damage".
Proof.
  apply (links2tags_without_brace (txt "Deals 1d6 damage")).
  vm_compute. intros H. repeat (apply elem_of_cons in H as [H|H]; [done|]).
  by apply elem_of_nil in H.
Defined.

Lemma replace_first_absent (old new s : text) :
  contains old s = false -> replace_first old new s = s.
Proof.
  induction s as [|c s IH]; intros H.
  - rewrite replace_first_eq. simpl in H. apply orb_false_iff in H as [-> _]. done.
  - apply contains_cons_false in H as [Hs Hc].
    rewrite replace_first_eq, Hs. by rewrite IH.
Qed.

Lemma tags2links_absent_fold (links : list text) (t : text) (c : nat) :
  (forall i, c <= i < c + length links -> contains (marker i) t = false) ->
  fold_left tags2links_step (enumerate_from c links) t = t.
Proof.
  revert c. induction links as [|l links IH]; intros c H; [done|].
  cbn [enumerate_from fold_left]. unfold tags2links_step at 2. cbn [fst snd].
  rewrite replace_first_absent by (apply H; simpl; lia).
  apply IH. intros i Hi. apply H. simpl. lia.
Qed.

(** When the provider has dropped every marker, [tags2links] returns the
    text as it is: a missing marker is no error, its tag is simply not put
    back. *)
Theorem tags2links_without_markers (t : text) (links : list text) :
  (forall i, i < length links -> contains (marker i) t = false) ->
  tags2links t links = t.
Proof.
  intros H. unfold tags2links. apply tags2links_absent_fold.
  intros i Hi. apply H. lia.
Qed.

Lemma tags2links_without_markers_witness :
  tags2links (txt "Si somma al bonus") [txt "{bonus}"; txt "{@dice 1d6}"]
  = txt "Si somma al bonus".
Proof.
  apply (tags2links_without_markers (txt "Si somma al bonus")
           [txt "{bonus}"; txt "{@dice 1d6}"]).
  intros i Hi. simpl in Hi.
  destruct i as [|[|i]]; [by vm_compute|by vm_compute|lia].
Defined.

(** Whatever the provider makes of the text between the markers, as long
    as it keeps the markers in order and produces no marker text of its
    own, [tags2links] puts the i-th tag exactly where the i-th marker
    stands. *)
Theorem tags2links_restores_in_place (segs : list (text * text)) (last : text) :
  (forall i, i < length segs -> contains (marker i) (flatten segs last) = false) ->
  tags2links (placeholders 0 segs last) (segs.*2) = flatten segs last.
Proof.
  intros H. unfold tags2links.
  apply (tags2links_fold segs last [] 0). intros i Hi. apply H. lia.
Qed.

Lemma tags2links_restores_in_place_witness :
  tags2links (txt "Si somma a (%0%) e a (%1%).") [txt "{bonus}"; txt "{@dice 1d6}"]
  = txt "Si somma a {bonus} e a {@dice 1d6}.".
Proof.
  apply (tags2links_restores_in_place
           [(txt "Si somma a ", txt "{bonus}"); (txt " e a ", txt "{@dice 1d6}")]
           (txt ".")).
  intros i Hi. simpl in Hi.
  destruct i as [|[|i]]; [by vm_compute|by vm_compute|lia].
Defined.

(** ** The short-text test *)

Lemma flatten_length_gaps (segs : list (text * text)) (last : text) :
  length (foldr (fun '(gap, _) acc => gap ++ [] ++ acc) last segs)
  <= length (flatten segs last).
Proof.
  unfold flatten. induction segs as [|[g t] segs IH]; [done|].
  cbn [foldr]. rewrite !length_app. cbn [length]. lia.
Qed.

Lemma re_sub_tags_length (t : text) : length (re_sub_tags [] t) <= length t.
Proof.
  destruct (re_scan_spec t) as (Ht & _ & _).
  rewrite Ht at 2. apply flatten_length_gaps.
Qed.

(** A text of fewer than 5 characters never reaches the cache or the
    provider: [translate] returns it and leaves the state as it was. *)
Theorem translate_skips_tiny_text (cfg : Config) (t : text) (st : St) :
  length t < 5 -> translate cfg t st = (st, Ok t).
Proof.
  intros H. apply translate_short. unfold too_short. apply Nat.ltb_lt.
  pose proof (re_sub_tags_length t) as H1.
  pose proof (length_filter (fun c => in_strip_class c = false) (re_sub_tags [] t)) as H2.
  unfold strip_class. lia.
Qed.

Lemma translate_skips_tiny_text_witness :
  translate (stub numbered false) (txt "Fire") (service0, world0)
  = (service0, world0, Ok (txt "Fire")).
Proof.
  apply (translate_skips_tiny_text (stub numbered false) (txt "Fire")). simpl. lia.
Defined.

(** ** What one call of [translate] keeps carries over to a whole walk *)

Lemma json_size_elem (x : json) (l : list json) :
  x ∈ l -> json_size x <= foldr (fun x n => json_size x + n) 0 l.
Proof.
  induction 1 as [x l|x y l _ IH]; simpl; lia.
Qed.

Lemma json_size_field (k : text) (v : json) (d : list (text * json)) :
  (k, v) ∈ d -> json_size v <= foldr (fun '(_, v) n => json_size v + n) 0 d.
Proof.
  induction d as [|[k0 v0] d IH]; intros H; [by apply elem_of_nil in H|].
  apply elem_of_cons in H as [H|H]; simpl.
  - inversion H; subst. lia.
  - apply IH in H. lia.
Qed.

Section Preservation.
Context (cfg : Config) (P : St -> Prop).
Hypothesis translate_keeps : forall t st, P st -> P (translate cfg t st).1.

Lemma for_each_keeps {A B} (body : A -> St -> St * Res B) (l : list A) (st : St) :
  (forall x, x ∈ l -> forall st, P st -> P (body x st).1) ->
  P st -> P (for_each body l st).1.
Proof.
  revert st. induction l as [|x l IH]; intros st Hb Hst; [done|].
  cbn [for_each].
  pose proof (Hb x (list_elem_of_here _ _) st Hst) as Hx.
  destruct (body x st) as [s1 [y|e]]; [|done].
  assert (P (for_each body l s1).1) as Hl.
  { apply IH; [|done]. intros z Hz. apply Hb. by apply list_elem_of_further. }
  by destruct (for_each body l s1) as [s2 [l'|e]].
Qed.

Lemma then_wrap_fst {A B} (f : A -> B) (r : St * Res A) : (then_wrap f r).1 = r.1.
Proof. done. Qed.

Lemma translate_value_keeps item st : P st -> P (translate_value cfg item st).1.
Proof. destruct item; simpl; auto. Qed.

Lemma translate_long_keeps el st : P st -> P (translate_long cfg el st).1.
Proof.
  destruct el as [| | |s| |]; simpl; auto. destruct (2 <? length s); simpl; auto.
Qed.

Lemma walk_section_keeps items st : P st -> P (walk_section cfg items st).1.
Proof.
  intros H. destruct items as [| | |s|l|d]; simpl; try done.
  - destruct s as [|c s]; [done|].
    pose proof (translate_keeps [c] st H).
    by destruct (translate cfg [c] st) as [s1 [r|e]].
  - apply for_each_keeps; [|done]. intros x _ s Hs. by apply translate_value_keeps.
  - destruct d as [|[k0 v0] d]; [done|].
    pose proof (translate_keeps k0 st H).
    by destruct (translate cfg k0 st) as [s1 [r|e]].
Qed.

Section WithRec.
Context (rec : json -> St -> St * Res json).

Lemma walk_again_keeps orig new st :
  (forall x, x ∈ orig -> forall st, P st -> P (rec x st).1) ->
  P st -> P (walk_again rec orig new st).1.
Proof.
  revert new st. induction orig as [|x orig IH]; intros new st Hr Hst; [by destruct new|].
  destruct new as [|y new]; [done|]. cbn [walk_again].
  assert (P (match x with JStr _ => (st, Ok y) | _ => rec x st end).1) as Hx.
  { pose proof (Hr x (list_elem_of_here _ _) st Hst). by destruct x. }
  destruct (match x with JStr _ => (st, Ok y) | _ => rec x st end) as [s1 [y'|e]]; [|done].
  assert (P (walk_again rec orig new s1).1) as Hl.
  { apply IH; [|done]. intros z Hz. apply Hr. by apply list_elem_of_further. }
  by destruct (walk_again rec orig new s1) as [s2 [l'|e]].
Qed.

Lemma walk_entry_keeps entry st :
  (forall x, json_size x <= json_size entry -> forall st, P st -> P (rec x st).1) ->
  P st -> P (walk_entry cfg rec entry st).1.
Proof.
  intros Hr Hst. destruct entry as [| | |s|els|d]; cbn [walk_entry]; try (by apply Hr).
  - by apply translate_keeps.
  - pose proof (for_each_keeps (translate_long cfg) els st
                  (fun x _ s Hs => translate_long_keeps x s Hs) Hst) as H1.
    destruct (for_each (translate_long cfg) els st) as [s1 [els'|e]]; [|done].
    rewrite then_wrap_fst. apply walk_again_keeps; [|done].
    intros x Hx. apply Hr. apply json_size_elem in Hx. simpl. lia.
Qed.

Lemma walk_field_keeps data k v st :
  (forall x, json_size x <= json_size v -> forall st, P st -> P (rec x st).1) ->
  P st -> P (walk_field cfg rec data k v st).1.
Proof.
  intros Hr Hst. destruct v as [| | |s|l|d]; cbn [walk_field]; try (by apply Hr).
  - destruct (key_in k _); [by apply translate_keeps|by apply Hr].
  - destruct (key_in k named_fields); [|by apply Hr].
    destruct (bool_decide (k = txt "items") && type_is_not_list data); [done|].
    rewrite then_wrap_fst. apply for_each_keeps; [|done].
    intros entry He s Hs. apply walk_entry_keeps; [|done].
    intros x Hx. apply Hr. apply json_size_elem in He. simpl. lia.
  - destruct (bool_decide (k = txt "other")); [|by apply Hr].
    rewrite then_wrap_fst. apply for_each_keeps; [|done].
    intros [section items] _ s Hs. rewrite then_wrap_fst. by apply walk_section_keeps.
Qed.

Lemma walk_fields_keeps seen todo st :
  (forall k v, (k, v) ∈ todo ->
     forall x, json_size x <= json_size v -> forall st, P st -> P (rec x st).1) ->
  P st -> P (walk_fields cfg rec seen todo st).1.
Proof.
  revert seen st. induction todo as [|[k v] todo IH]; intros seen st Hr Hst; [done|].
  cbn [walk_fields].
  pose proof (walk_field_keeps (seen ++ (k, v) :: todo) k v st
                (Hr k v (list_elem_of_here _ _)) Hst) as Hf.
  destruct (walk_field cfg rec (seen ++ (k, v) :: todo) k v st) as [s1 [v'|e]]; [|done].
  apply IH; [|done]. intros k' w' Hin. apply (Hr k' w'). by apply list_elem_of_further.
Qed.

End WithRec.

Lemma translate_data_keeps_sized (n : nat) (d : json) (st : St) :
  json_size d <= n -> P st -> P (translate_data cfg d st).1.
Proof.
  revert d st. induction n as [|n IH]; intros d st Hn Hst.
  - destruct d; simpl in Hn; lia.
  - destruct d as [| | |s|l|fs]; try done.
    + rewrite translate_data_list, then_wrap_fst. apply for_each_keeps; [|done].
      intros x Hx s Hs. apply IH; [|done].
      apply json_size_elem in Hx. simpl in Hn. lia.
    + rewrite translate_data_dict, then_wrap_fst. apply walk_fields_keeps; [|done].
      intros k v Hin x Hx s Hs. apply IH; [|done].
      apply json_size_field in Hin. simpl in Hn. lia.
Qed.

(** Whatever every call of [translate] keeps, the walk of a document
    keeps. *)
Lemma translate_data_keeps (d : json) (st : St) :
  P st -> P (translate_data cfg d st).1.
Proof. by apply (translate_data_keeps_sized (json_size d)). Qed.

End Preservation.

(** ** One call of [translate] *)

Section TranslateFacts.
Context (cfg : Config).

Lemma late_has_limit (w : World) : (deadline_exceeded cfg w).2 = true -> maxRuntime cfg <> 0%Z.
Proof.
  unfold deadline_exceeded. intros H Hz. rewrite Hz in H. done.
Qed.

Lemma checked_disk t w : disk (checked cfg t w) = disk w.
Proof. unfold checked, deadline_exceeded. by destruct (maxRuntime cfg =? 0)%Z. Qed.

Lemma retry_loop_disk n attempt arg w : disk (retry_loop cfg n attempt arg w).1 = disk w.
Proof.
  destruct (retry_loop_frame cfg n attempt arg w) as (m & evs & _ & ->). done.
Qed.

(** The five ways a call can go. *)
Lemma translate_cases (t : text) (tr : Translator) (w : World) :
  translate cfg t (tr, w) = (tr, w, Ok t) \/
  (exists r, cacheGet t tr = Some r /\
     translate cfg t (tr, w) = (add_cachedCharCount (length t) tr, log (EvCacheGet t) w, Ok r)) \/
  ((deadline_exceeded cfg w).2 = true /\
     translate cfg t (tr, w) = (tr, checked cfg t w, Raise MaxRuntimeExceeded)) \/
  (exists w1, cacheGet t tr = None /\
     retry_loop cfg MAX_RETRIES 0 (links2tags t).1 (checked cfg t w) = (w1, None) /\
     translate cfg t (tr, w) = (add_charCount (length t) tr, log (EvGiveUp t) w1, Ok t)) \/
  (exists w1 out, cacheGet t tr = None /\
     retry_loop cfg MAX_RETRIES 0 (links2tags t).1 (checked cfg t w) = (w1, Some out) /\
     translate cfg t (tr, w) =
       (cacheSet cfg t (tags2links out (links2tags t).2) (add_charCount (length t) tr),
        log (EvTranslated t (tags2links out (links2tags t).2)) w1,
        Ok (tags2links out (links2tags t).2))).
Proof.
  destruct (too_short t) eqn:H1.
  { left. by apply translate_short. }
  destruct (cacheGet t tr) as [r|] eqn:H2.
  { right. left. exists r. split; [done|]. by apply translate_hit. }
  destruct (deadline_exceeded cfg w).2 eqn:H3.
  { right. right. left. split; [done|]. apply translate_late; [done|done|].
    unfold in_time. by rewrite H3. }
  right. right. right. rewrite translate_miss by done.
  destruct (retry_loop _ _ _ _ _) as [w1 [out|]] eqn:E.
  - right. by exists w1, out.
  - left. by exists w1.
Qed.

(** The only exception [translate] raises is the deadline one, and only
    when a limit is set; with [maxRuntime = 0] every call returns a text.
    When it raises it has made no provider call and has changed neither
    the cache nor the counters of the service. *)
Theorem translate_raises_only_deadline (t : text) (tr tr' : Translator) (w w' : World)
    (e : pyexn) :
  translate cfg t (tr, w) = (tr', w', Raise e) ->
  e = MaxRuntimeExceeded /\ maxRuntime cfg <> 0%Z /\ tr' = tr /\ calls w' = calls w.
Proof.
  intros H.
  destruct (translate_cases t tr w)
    as [E|[(r & _ & E)|[(Hl & E)|[(w1 & _ & _ & E)|(w1 & out & _ & _ & E)]]]];
    rewrite E in H; inversion H; subst.
  repeat split; [by eapply late_has_limit|by rewrite checked_calls].
Qed.

Lemma translate_unlimited (t : text) (st : St) :
  maxRuntime cfg = 0%Z -> exists r, (translate cfg t st).2 = Ok r.
Proof.
  intros Hz. destruct st as [tr w].
  destruct (translate cfg t (tr, w)) as [[tr' w'] [r|e]] eqn:E; [by exists r|].
  destruct (translate_cases t tr w)
    as [E'|[(r & _ & E')|[(Hl & E')|[(w1 & _ & _ & E')|(w1 & out & _ & _ & E')]]]];
    rewrite E' in E; inversion E; subst.
  by apply late_has_limit in Hl.
Qed.

Lemma translate_cache_change (t : text) (tr tr' : Translator) (w w' : World)
    (res : Res text) :
  translate cfg t (tr, w) = (tr', w', res) ->
  (cacheData tr' = cacheData tr /\ cacheDirty tr' = cacheDirty tr) \/
  (exists r, cacheData tr !! t = None /\ res = Ok r /\
             cacheData tr' = <[t := r]> (cacheData tr) /\ cacheDirty tr' = true).
Proof.
  intros H.
  destruct (translate_cases t tr w)
    as [E|[(r & _ & E)|[(Hl & E)|[(w1 & _ & _ & E)|(w1 & out & Hm & _ & E)]]]];
    rewrite E in H; inversion H; subst; try (by left).
  unfold cacheSet. destruct (disableCacheSave cfg); [by left|].
  right. by eexists.
Qed.

(** A call changes the cache at one key at most, the text itself, and only
    to store the translation it returns for a text the cache did not hold;
    no entry is ever overwritten or removed. *)
Theorem translate_caches_its_result (t : text) (tr tr' : Translator) (w w' : World)
    (res : Res text) :
  translate cfg t (tr, w) = (tr', w', res) ->
  (cacheData tr' = cacheData tr /\ cacheDirty tr' = cacheDirty tr) \/
  (exists r, cacheData tr !! t = None /\ res = Ok r /\
             cacheData tr' = <[t := r]> (cacheData tr) /\ cacheDirty tr' = true).
Proof. apply translate_cache_change. Qed.

Lemma translate_cache_grows (t : text) (st : St) :
  cacheData st.1 ⊆ cacheData (translate cfg t st).1.1.
Proof.
  destruct st as [tr w].
  destruct (translate cfg t (tr, w)) as [[tr' w'] res] eqn:E. cbn [fst].
  destruct (translate_cache_change t tr tr' w w' res E) as [[-> _]|(r & Hn & _ & -> & _)].
  - done.
  - by apply insert_subseteq.
Qed.

End TranslateFacts.

Section TranslateTrace.
Context (cfg : Config).

(** The retry loop either ends at the first answer, after [k] failures, or
    runs out after [n] failures. *)
Lemma retry_loop_outcome n attempt arg w :
  (exists k out, k < n /\
     retry_loop cfg n attempt arg w =
       (advance (S k) (failed_attempts k attempt arg ++ attempt_events (attempt + k) arg) w,
        Some out)) \/
  retry_loop cfg n attempt arg w = (advance n (failed_attempts n attempt arg) w, None).
Proof.
  revert attempt w. induction n as [|n IH]; intros attempt w.
  - right. by rewrite advance_0_nil.
  - rewrite retry_loop_eq. destruct (provider cfg (calls w) arg) as [out|].
    + left. exists 0, out. split; [lia|]. by rewrite Nat.add_0_r.
    + destruct (IH (S attempt)
        (advance 1 (attempt_events attempt arg ++ [EvProviderError (S attempt)]) w))
        as [(k & out & Hk & ->) | ->].
      * left. exists (S k), out. split; [lia|]. rewrite advance_advance.
        cbn [failed_attempts]. rewrite <- !app_assoc. cbn [app].
        by replace (attempt + S k) with (S attempt + k) by lia.
      * right. rewrite advance_advance. cbn [failed_attempts].
        by rewrite <- !app_assoc.
Qed.

(** The events one call adds to the trace. *)
Lemma translate_events (t : text) (tr : Translator) (w : World) :
  exists evs,
    trace (translate cfg t (tr, w)).1.2 = trace w ++ evs /\
    (evs = [] \/ evs = [EvCacheGet t] \/ evs = [EvCacheGet t; EvCacheMiss t] \/
     (exists k r, k < MAX_RETRIES /\
        evs = [EvCacheGet t; EvCacheMiss t] ++ failed_attempts k 0 (links2tags t).1
                ++ attempt_events k (links2tags t).1 ++ [EvTranslated t r]) \/
     evs = [EvCacheGet t; EvCacheMiss t] ++ failed_attempts MAX_RETRIES 0 (links2tags t).1
             ++ [EvGiveUp t]).
Proof.
  destruct (translate_cases cfg t tr w)
    as [E|[(r & _ & E)|[(Hl & E)|[(w1 & _ & Hr & E)|(w1 & out & _ & Hr & E)]]]];
    rewrite E; cbn [fst snd].
  - exists []. split; [by rewrite app_nil_r|by left].
  - exists [EvCacheGet t]. split; [done|]. right. by left.
  - exists [EvCacheGet t; EvCacheMiss t]. split; [apply checked_trace|]. right. right. by left.
  - destruct (retry_loop_outcome MAX_RETRIES 0 (links2tags t).1 (checked cfg t w))
      as [(k & o & _ & Hk)|Hk]; rewrite Hk in Hr; inversion Hr; subst.
    eexists. split; [|right; right; right; right; reflexivity].
    cbn [log advance trace]. rewrite checked_trace. by rewrite <- !app_assoc.
  - destruct (retry_loop_outcome MAX_RETRIES 0 (links2tags t).1 (checked cfg t w))
      as [(k & o & Hlt & Hk)|Hk]; rewrite Hk in Hr; inversion Hr; subst.
    eexists. split; [|right; right; right; left; exists k; eexists; split; [done|reflexivity]].
    cbn [log advance trace]. rewrite checked_trace. by rewrite <- !app_assoc.
Qed.

Lemma calls_tag_free_attempt attempt arg :
  finditer arg = [] -> calls_tag_free (attempt_events attempt arg).
Proof.
  intros H. unfold attempt_events, calls_tag_free.
  destruct (0 <? attempt); repeat constructor; done.
Qed.

Lemma calls_tag_free_failed k attempt arg :
  finditer arg = [] -> calls_tag_free (failed_attempts k attempt arg).
Proof.
  intros H. revert attempt. induction k as [|k IH]; intros attempt; [constructor|].
  cbn [failed_attempts]. apply Forall_app. split; [by apply calls_tag_free_attempt|].
  constructor; [done|apply IH].
Qed.

Lemma translate_calls_tag_free (t : text) (st : St) :
  calls_tag_free (trace st.2) -> calls_tag_free (trace (translate cfg t st).1.2).
Proof.
  destruct st as [tr w]. cbn [snd]. intros H.
  pose proof (placeholder_text_no_tag t) as Ht.
  destruct (translate_events t tr w) as (evs & -> & Hevs).
  apply Forall_app. split; [done|].
  destruct Hevs as [->|[->|[->|[(k & r & _ & ->) | ->]]]].
  - constructor.
  - by repeat constructor.
  - by repeat constructor.
  - cbn [app]. do 2 (constructor; [done|]).
    apply Forall_app. split; [by apply calls_tag_free_failed|].
    apply Forall_app. split; [by apply calls_tag_free_attempt|]. by repeat constructor.
  - cbn [app]. do 2 (constructor; [done|]).
    apply Forall_app. split; [by apply calls_tag_free_failed|].
    by repeat constructor.
Qed.

Lemma slept_app evs evs' : (slept (evs ++ evs') == slept evs + slept evs')%Q.
Proof.
  induction evs as [|e evs IH]; simpl.
  - by rewrite Qplus_0_l.
  - destruct e; try done. rewrite IH. by rewrite Qplus_assoc.
Qed.

Lemma slept_attempts k arg t r :
  k < MAX_RETRIES ->
  (slept (failed_attempts k 0 arg ++ attempt_events k arg ++ [EvTranslated t r]) <= 15)%Q.
Proof.
  unfold MAX_RETRIES. intros Hk.
  do 5 (destruct k as [|k]; [by vm_compute|]). lia.
Qed.

Lemma slept_exhausted arg t :
  (slept (failed_attempts MAX_RETRIES 0 arg ++ [EvGiveUp t]) <= 15)%Q.
Proof. by vm_compute. Qed.


(** One call of [translate] sleeps for 15 seconds at most
    (1 + 2 + 4 + 8, between its five attempts). *)
Theorem translate_sleeps_at_most_15 (t : text) (tr : Translator) (w : World) :
  (slept (trace (translate cfg t (tr, w)).1.2) <= slept (trace w) + 15)%Q.
Proof.
  destruct (translate_events t tr w) as (evs & -> & Hevs).
  rewrite slept_app. apply Qplus_le_r.
  destruct Hevs as [->|[->|[->|[(k & r & Hk & ->) | ->]]]]; try done.
  cbn [app slept]. by apply slept_attempts.
Qed.

Lemma translate_disk (t : text) (st : St) :
  disk (translate cfg t st).1.2 = disk st.2 /\
  cacheFile (translate cfg t st).1.1 = cacheFile st.1 /\
  target_lang (translate cfg t st).1.1 = target_lang st.1.
Proof.
  destruct st as [tr w].
  destruct (translate_cases cfg t tr w)
    as [E|[(r & _ & E)|[(Hl & E)|[(w1 & _ & Hr & E)|(w1 & out & _ & Hr & E)]]]];
    rewrite E; cbn [fst snd]; try done.
  - by rewrite <- (checked_disk cfg t w).
  - pose proof (retry_loop_disk cfg MAX_RETRIES 0 (links2tags t).1 (checked cfg t w)) as Hd.
    rewrite Hr, checked_disk in Hd. done.
  - pose proof (retry_loop_disk cfg MAX_RETRIES 0 (links2tags t).1 (checked cfg t w)) as Hd.
    rewrite Hr, checked_disk in Hd. split; [done|].
    unfold cacheSet. by destruct (disableCacheSave cfg).
Qed.

Lemma translate_nocache (t : text) (st : St) :
  disableCacheSave cfg = true ->
  cacheData (translate cfg t st).1.1 = cacheData st.1 /\
  cacheDirty (translate cfg t st).1.1 = cacheDirty st.1.
Proof.
  intros Hd. destruct st as [tr w].
  destruct (translate_cases cfg t tr w)
    as [E|[(r & _ & E)|[(Hl & E)|[(w1 & _ & Hr & E)|(w1 & out & _ & Hr & E)]]]];
    rewrite E; cbn [fst snd]; try done.
  unfold cacheSet. by rewrite Hd.
Qed.

(** ** A whole walk *)

(** Over the whole walk of a document, no text handed to the provider
    holds a tag. *)
Theorem walk_gives_provider_no_tag (d : json) (st : St) :
  calls_tag_free (trace st.2) ->
  calls_tag_free (trace (translate_data cfg d st).1.2).
Proof.
  apply (translate_data_keeps cfg (fun s => calls_tag_free (trace s.2))).
  intros t s. apply translate_calls_tag_free.
Qed.

Lemma walk_cache_grows (d : json) (st : St) :
  cacheData st.1 ⊆ cacheData (translate_data cfg d st).1.1.
Proof.
  apply (translate_data_keeps cfg (fun s => cacheData st.1 ⊆ cacheData s.1)); [|done].
  intros t s Hs. etrans; [exact Hs|]. apply (translate_cache_grows cfg t s).
Qed.

(** The walk of a document only adds to the cache: every entry the cache
    held before is still there, with the same translation, afterwards. *)
Theorem walk_extends_cache (d : json) (st : St) (k v : text) :
  cacheData st.1 !! k = Some v ->
  cacheData (translate_data cfg d st).1.1 !! k = Some v.
Proof.
  intros H. eapply lookup_weaken; [exact H|]. apply walk_cache_grows.
Qed.

Lemma walk_disk (d : json) (st : St) :
  disk (translate_data cfg d st).1.2 = disk st.2 /\
  cacheFile (translate_data cfg d st).1.1 = cacheFile st.1 /\
  target_lang (translate_data cfg d st).1.1 = target_lang st.1.
Proof.
  apply (translate_data_keeps cfg
    (fun s => disk s.2 = disk st.2 /\ cacheFile s.1 = cacheFile st.1 /\
              target_lang s.1 = target_lang st.1)); [|done].
  intros t s (H1 & H2 & H3). destruct (translate_disk t s) as (E1 & E2 & E3).
  rewrite E1, E2, E3. done.
Qed.

Lemma walk_no_file (d : json) (st : St) :
  cache_files (translate_data cfg d st).1.2 = cache_files st.2 /\
  data_files (translate_data cfg d st).1.2 = data_files st.2 /\
  output_files (translate_data cfg d st).1.2 = output_files st.2 /\
  ioops (translate_data cfg d st).1.2 = ioops st.2 /\
  todoCharCounter (translate_data cfg d st).1.2 = todoCharCounter st.2 /\
  currentFileIndex (translate_data cfg d st).1.2 = currentFileIndex st.2 /\
  cacheFile (translate_data cfg d st).1.1 = cacheFile st.1.
Proof.
  destruct (walk_disk d st) as (Hd & Hf & _). unfold disk in Hd.
  inversion Hd. by repeat split.
Qed.

(** The walk of a document does no file operation: the cache, input and
    output trees, the driver's counters and the name of the cache file are
    as they were. *)
Theorem walk_touches_no_file (d : json) (st : St) :
  cache_files (translate_data cfg d st).1.2 = cache_files st.2 /\
  data_files (translate_data cfg d st).1.2 = data_files st.2 /\
  output_files (translate_data cfg d st).1.2 = output_files st.2 /\
  ioops (translate_data cfg d st).1.2 = ioops st.2 /\
  todoCharCounter (translate_data cfg d st).1.2 = todoCharCounter st.2 /\
  currentFileIndex (translate_data cfg d st).1.2 = currentFileIndex st.2 /\
  cacheFile (translate_data cfg d st).1.1 = cacheFile st.1.
Proof. apply walk_no_file. Qed.

Lemma walk_nocache (d : json) (st : St) :
  disableCacheSave cfg = true ->
  cacheData (translate_data cfg d st).1.1 = cacheData st.1 /\
  cacheDirty (translate_data cfg d st).1.1 = cacheDirty st.1.
Proof.
  intros Hd.
  apply (translate_data_keeps cfg
    (fun s => cacheData s.1 = cacheData st.1 /\ cacheDirty s.1 = cacheDirty st.1)); [|done].
  intros t s [H1 H2]. destruct (translate_nocache t s Hd) as [E1 E2].
  by rewrite E1, E2.
Qed.

End TranslateTrace.

Lemma translate_raises_only_deadline_witness :
  MaxRuntimeExceeded = MaxRuntimeExceeded /\ maxRuntime late_cfg <> 0%Z /\
  service0 = service0 /\
  calls (translate late_cfg sample (service0, bump_reads world0)).1.2
    = calls (bump_reads world0).
Proof.
  eapply (translate_raises_only_deadline late_cfg sample service0 service0
            (bump_reads world0)).
  vm_compute. reflexivity.
Defined.

Lemma translate_caches_its_result_witness :
  (cacheData (translate (stub answers false) sample (service0, world0)).1.1
     = cacheData service0 /\
   cacheDirty (translate (stub answers false) sample (service0, world0)).1.1
     = cacheDirty service0) \/
  (exists r, cacheData service0 !! sample = None /\
     (translate (stub answers false) sample (service0, world0)).2 = Ok r /\
     cacheData (translate (stub answers false) sample (service0, world0)).1.1
       = <[sample := r]> (cacheData service0) /\
     cacheDirty (translate (stub answers false) sample (service0, world0)).1.1 = true).
Proof.
  destruct (translate (stub answers false) sample (service0, world0)) as [[tr' w'] res] eqn:E.
  exact (translate_caches_its_result (stub answers false) sample service0 tr' world0 w' res E).
Defined.

Lemma walk_gives_provider_no_tag_witness :
  calls_tag_free
    (trace (translate_data (stub answers false)
              (JDict [(txt "entry", JStr sample)]) (service0, world0)).1.2).
Proof.
  apply (walk_gives_provider_no_tag (stub answers false)
           (JDict [(txt "entry", JStr sample)]) (service0, world0)).
  constructor.
Defined.

Lemma walk_extends_cache_witness :
  cacheData
    (translate_data (stub answers false) (JDict [(txt "entry", JStr sample)])
       (set_cache false {[ txt "Fire Bolt" := txt "Dardo di fuoco" ]} service0, world0)).1.1
    !! txt "Fire Bolt" = Some (txt "Dardo di fuoco").
Proof.
  apply (walk_extends_cache (stub answers false) (JDict [(txt "entry", JStr sample)])
           (set_cache false {[ txt "Fire Bolt" := txt "Dardo di fuoco" ]} service0, world0)).
  by vm_compute.
Defined.

(** ** The walk changes strings only *)

Lemma for_each_Forall2_in {A B} (body : A -> St -> St * Res B) l st st' l' :
  for_each body l st = (st', Ok l') ->
  Forall2 (fun x y => x ∈ l /\ exists s1 s2, body x s1 = (s2, Ok y)) l l'.
Proof.
  revert st l'. induction l as [|x l IH]; intros st l' H; simpl in H.
  - inversion H. constructor.
  - destruct (body x st) as [s1 [y|e]] eqn:E; [|done].
    destruct (for_each body l s1) as [s2 [l''|e]] eqn:E'; [|done].
    inversion H; subst. constructor.
    + split; [apply list_elem_of_here|eauto].
    + eapply Forall2_impl; [by eapply IH|].
      intros a b [Ha Hb]. split; [by apply list_elem_of_further|done].
Qed.

Lemma Forall2_skeleton (l l' : list json) :
  Forall2 (fun x y => skeleton y = skeleton x) l l' -> map skeleton l' = map skeleton l.
Proof. induction 1 as [|x y l l' H _ IH]; [done|]. simpl. by rewrite H, IH. Qed.

Section Skeleton.
Context (cfg : Config).

Lemma translate_value_skeleton x s s' y :
  translate_value cfg x s = (s', Ok y) -> skeleton y = skeleton x.
Proof.
  destruct x; simpl; try done. intros H. by apply then_wrap_ok in H as (out & _ & ->).
Qed.

Lemma translate_long_skeleton x s s' y :
  translate_long cfg x s = (s', Ok y) -> skeleton y = skeleton x.
Proof.
  destruct x as [| | |t| |]; simpl; try (by intros H; inversion H).
  destruct (2 <? length t); intros H; [|by inversion H].
  by apply then_wrap_ok in H as (out & _ & ->).
Qed.

Lemma walk_section_skeleton items s s' y :
  walk_section cfg items s = (s', Ok y) -> skeleton y = skeleton items.
Proof.
  destruct items as [| | |t|l|d]; simpl; try done.
  - destruct t as [|c t]; [by intros H; inversion H|].
    by destruct (translate cfg [c] s) as [s1 [r|e]].
  - intros H. apply then_wrap_ok in H as (l' & H & ->).
    apply for_each_Forall2 in H. simpl. f_equal. apply Forall2_skeleton.
    eapply Forall2_impl; [exact H|].
    intros a b (s1 & s2 & Hab). by eapply translate_value_skeleton.
  - destruct d as [|[k0 v0] d]; [by intros H; inversion H|].
    by destruct (translate cfg k0 s) as [s1 [r|e]].
Qed.

Section WithRec.
Context (rec : json -> St -> St * Res json).

Lemma walk_again_skeleton orig new s s' l2 :
  (forall x, x ∈ orig -> keeps_skeleton rec x) ->
  Forall2 (fun x y => skeleton y = skeleton x) orig new ->
  walk_again rec orig new s = (s', Ok l2) ->
  map skeleton l2 = map skeleton orig.
Proof.
  intros Hr HF. revert s l2 Hr.
  induction HF as [|x y orig new Hxy _ IH]; intros s l2 Hr H.
  - by inversion H.
  - cbn [walk_again] in H.
    destruct (match x with JStr _ => (s, Ok y) | _ => rec x s end) as [s1 [y'|e]] eqn:E;
      [|done].
    destruct (walk_again rec orig new s1) as [s2 [l|e]] eqn:E'; [|done].
    inversion H; subst. simpl. f_equal.
    + pose proof (Hr x (list_elem_of_here _ _)) as Hx.
      destruct x; try (by eapply Hx). by inversion E; subst.
    + eapply IH; [|exact E']. intros z Hz. apply Hr. by apply list_elem_of_further.
Qed.

Lemma walk_entry_skeleton entry s s' y :
  (forall x, json_size x <= json_size entry -> keeps_skeleton rec x) ->
  walk_entry cfg rec entry s = (s', Ok y) -> skeleton y = skeleton entry.
Proof.
  intros Hr H.
  destruct entry as [| | |t|els|d]; cbn [walk_entry] in H; try (by eapply Hr).
  - by apply then_wrap_ok in H as (out & _ & ->).
  - destruct (for_each (translate_long cfg) els s) as [s1 [els'|e]] eqn:E; [|done].
    apply then_wrap_ok in H as (l2 & H & ->). simpl. f_equal.
    eapply walk_again_skeleton; [| |exact H].
    + intros x Hx. apply Hr. apply json_size_elem in Hx. simpl. lia.
    + apply for_each_Forall2 in E. eapply Forall2_impl; [exact E|].
      intros a b (s2 & s3 & Hab). by eapply translate_long_skeleton.
Qed.

Lemma walk_field_skeleton data k v s s' y :
  (forall x, json_size x <= json_size v -> keeps_skeleton rec x) ->
  walk_field cfg rec data k v s = (s', Ok y) -> skeleton y = skeleton v.
Proof.
  intros Hr H.
  destruct v as [| | |t|l|d]; cbn [walk_field] in H; try (by eapply Hr).
  - destruct (key_in k _); [|by eapply Hr].
    by apply then_wrap_ok in H as (out & _ & ->).
  - destruct (key_in k named_fields); [|by eapply Hr].
    destruct (bool_decide (k = txt "items") && type_is_not_list data); [by inversion H|].
    apply then_wrap_ok in H as (l' & H & ->). simpl. f_equal.
    apply Forall2_skeleton. apply for_each_Forall2_in in H.
    eapply Forall2_impl; [exact H|].
    intros a b (Ha & s1 & s2 & Hab). eapply walk_entry_skeleton; [|exact Hab].
    intros x Hx. apply Hr. apply json_size_elem in Ha. simpl. lia.
  - destruct (bool_decide (k = txt "other")); [|by eapply Hr].
    apply then_wrap_ok in H as (d' & H & ->). simpl. f_equal.
    apply for_each_Forall2 in H. clear Hr.
    induction H as [|[k1 v1] [k2 v2] d d' (s1 & s2 & Hab) _ IH]; [done|].
    simpl. rewrite IH. f_equal.
    apply then_wrap_ok in Hab as (v' & Hv & Hp). inversion Hp; subst.
    f_equal. by eapply walk_section_skeleton.
Qed.

Lemma walk_fields_skeleton seen todo s s' dd :
  (forall k v, (k, v) ∈ todo -> forall x, json_size x <= json_size v -> keeps_skeleton rec x) ->
  walk_fields cfg rec seen todo s = (s', Ok dd) ->
  exists todo',
    dd = seen ++ todo' /\
    map (fun '(k, v) => (k, skeleton v)) todo' = map (fun '(k, v) => (k, skeleton v)) todo.
Proof.
  revert seen s. induction todo as [|[k v] todo IH]; intros seen s Hr H.
  - inversion H; subst. exists []. by rewrite app_nil_r.
  - cbn [walk_fields] in H.
    destruct (walk_field cfg rec (seen ++ (k, v) :: todo) k v s) as [s1 [v'|e]] eqn:E; [|done].
    apply IH in H as (todo' & -> & Hm).
    + exists ((k, v') :: todo'). split; [by rewrite <- app_assoc|].
      simpl. rewrite Hm. f_equal. f_equal.
      eapply walk_field_skeleton; [|exact E]. apply (Hr k v). apply list_elem_of_here.
    + intros k' w' Hin. apply (Hr k' w'). by apply list_elem_of_further.
Qed.

End WithRec.

Lemma translate_data_skeleton_sized (n : nat) (d : json) :
  json_size d <= n -> keeps_skeleton (translate_data cfg) d.
Proof.
  revert d. induction n as [|n IH]; intros d Hn s s' y H.
  - destruct d; simpl in Hn; lia.
  - destruct d as [| | |t|l|fs]; try (by inversion H).
    + rewrite translate_data_list in H. apply then_wrap_ok in H as (l' & H & ->).
      simpl. f_equal. apply Forall2_skeleton. apply for_each_Forall2_in in H.
      eapply Forall2_impl; [exact H|].
      intros a b (Ha & s1 & s2 & Hab). eapply IH; [|exact Hab].
      apply json_size_elem in Ha. simpl in Hn. lia.
    + rewrite translate_data_dict in H. apply then_wrap_ok in H as (dd & H & ->).
      apply walk_fields_skeleton in H as (todo' & -> & Hm).
      * simpl. by rewrite Hm.
      * intros k v Hin x Hx. apply IH.
        apply json_size_field in Hin. simpl in Hn. lia.
Qed.

(** A walk that ends normally changes nothing but the contents of strings:
    the result has the fields of the document, in the same order and under
    the same names, lists of the same lengths, and the same numbers,
    booleans and nulls. *)
Theorem walk_keeps_skeleton (d d' : json) (st st' : St) :
  translate_data cfg d st = (st', Ok d') -> skeleton d' = skeleton d.
Proof. by apply (translate_data_skeleton_sized (json_size d)). Qed.

End Skeleton.

Lemma walk_keeps_skeleton_witness :
  skeleton (JDict [(txt "name", JStr (txt "Fireball")); (txt "level", JNum 3);
                   (txt "entries", JList [JStr (txt "IT A spell of great power")])])
  = skeleton (JDict [(txt "name", JStr (txt "Fireball")); (txt "level", JNum 3);
                     (txt "entries", JList [JStr (txt "A spell of great power")])]).
Proof.
  eapply (walk_keeps_skeleton (stub answers false) _ _ (service0, world0)).
  vm_compute. reflexivity.
Defined.

(** ** Fields the walker has no rule for *)

Lemma existsb_false_elem {A} (f : A -> bool) (l : list A) (x : A) :
  existsb f l = false -> x ∈ l -> f x = false.
Proof.
  induction l as [|a l IH]; intros H Hx; [by apply elem_of_nil in Hx|].
  simpl in H. apply orb_false_iff in H as [Ha Hl].
  apply elem_of_cons in Hx as [->|Hx]; auto.
Qed.

Lemma forallb_true_elem {A} (f : A -> bool) (l : list A) (x : A) :
  forallb f l = true -> x ∈ l -> f x = true.
Proof.
  induction l as [|a l IH]; intros H Hx; [by apply elem_of_nil in Hx|].
  simpl in H. apply andb_true_iff in H as [Ha Hl].
  apply elem_of_cons in Hx as [->|Hx]; auto.
Qed.

Lemma for_each_id {A} (body : A -> St -> St * Res A) (l : list A) (st : St) :
  (forall x, x ∈ l -> forall s, body x s = (s, Ok x)) ->
  for_each body l st = (st, Ok l).
Proof.
  induction l as [|x l IH]; intros H; [done|].
  cbn [for_each]. rewrite (H x (list_elem_of_here _ _)).
  rewrite IH; [done|]. intros z Hz. apply H. by apply list_elem_of_further.
Qed.

Lemma unlisted_key (k : text) :
  key_in k rule_names = false ->
  key_in k [txt "entry"; txt "effect"] = false /\
  bool_decide (k = txt "other") = false /\
  key_in k named_fields = false.
Proof.
  unfold key_in, rule_names, named_fields. intros H.
  apply bool_decide_eq_false in H.
  repeat split; apply bool_decide_eq_false; intros H'; apply H; subst;
    repeat (apply elem_of_cons in H' as [->|H']; [set_solver|]);
    try (by apply elem_of_nil in H'); set_solver.
Qed.

Section Unlisted.
Context (cfg : Config).

Lemma walk_field_unlisted rec data k v st :
  key_in k rule_names = false -> rec v st = (st, Ok v) ->
  walk_field cfg rec data k v st = (st, Ok v).
Proof.
  intros Hk Hv. destruct (unlisted_key k Hk) as (H1 & H2 & H3).
  destruct v; cbn [walk_field]; by rewrite ?H1, ?H2, ?H3.
Qed.

Lemma walk_fields_unlisted rec seen todo st :
  (forall k v, (k, v) ∈ todo ->
     key_in k rule_names = false /\ forall s, rec v s = (s, Ok v)) ->
  walk_fields cfg rec seen todo st = (st, Ok (seen ++ todo)).
Proof.
  revert seen. induction todo as [|[k v] todo IH]; intros seen H.
  - by rewrite app_nil_r.
  - cbn [walk_fields]. destruct (H k v (list_elem_of_here _ _)) as [Hk Hv].
    rewrite walk_field_unlisted by done.
    rewrite IH; [by rewrite <- app_assoc|].
    intros k' v' Hin. apply H. by apply list_elem_of_further.
Qed.

Lemma translate_data_unlisted_sized (n : nat) (d : json) (st : St) :
  json_size d <= n -> mentions_rule d = false -> translate_data cfg d st = (st, Ok d).
Proof.
  revert d st. induction n as [|n IH]; intros d st Hn Hm.
  - destruct d; simpl in Hn; lia.
  - destruct d as [| | |t|l|fs]; try done.
    + rewrite translate_data_list. rewrite for_each_id; [done|].
      intros x Hx s. apply IH.
      * apply json_size_elem in Hx. simpl in Hn. lia.
      * simpl in Hm. by eapply existsb_false_elem.
    + rewrite translate_data_dict. rewrite walk_fields_unlisted; [done|].
      intros k v Hin. simpl in Hm.
      pose proof (existsb_false_elem _ _ _ Hm Hin) as Hkv. simpl in Hkv.
      apply orb_false_iff in Hkv as [Hk Hv]. split; [done|].
      intros s. apply IH; [|done].
      apply json_size_field in Hin. simpl in Hn. lia.
Qed.

(** There is no rule that translates every string: a document in which no
    mapping has a field named [entry], [effect], [other], [entries],
    [items], [rows], [headerEntries], [reasons] or [lifeTrinket] comes back
    from the walk as it was, and the state with it; neither the cache nor
    the provider is asked anything. *)
Theorem walk_ignores_unlisted_fields (d : json) (st : St) :
  mentions_rule d = false -> translate_data cfg d st = (st, Ok d).
Proof. by apply (translate_data_unlisted_sized (json_size d)). Qed.

End Unlisted.

Lemma walk_ignores_unlisted_fields_witness :
  translate_data (stub answers false)
    (JDict [(txt "name", JStr (txt "Fireball of great power")); (txt "level", JNum 3);
            (txt "school", JDict [(txt "full", JStr (txt "Evocation"))]);
            (txt "classes", JList [JStr (txt "Sorcerer"); JStr (txt "Wizard")])])
    (service0, world0)
  = (service0, world0,
     Ok (JDict [(txt "name", JStr (txt "Fireball of great power")); (txt "level", JNum 3);
                (txt "school", JDict [(txt "full", JStr (txt "Evocation"))]);
                (txt "classes", JList [JStr (txt "Sorcerer"); JStr (txt "Wizard")])])).
Proof.
  apply (walk_ignores_unlisted_fields (stub answers false)). by vm_compute.
Defined.

(** ** What makes a walk raise *)

Section Returns.
Context (cfg : Config).
Hypothesis unlimited : maxRuntime cfg = 0%Z.

Lemma for_each_returns {A B} (body : A -> St -> St * Res B) (l : list A) (st : St) :
  (forall x, x ∈ l -> forall s, exists y, (body x s).2 = Ok y) ->
  exists l', (for_each body l st).2 = Ok l'.
Proof.
  revert st. induction l as [|x l IH]; intros st H; [by exists []|].
  cbn [for_each].
  destruct (H x (list_elem_of_here _ _) st) as [y Hy].
  destruct (body x st) as [s1 [y'|e]]; [|done].
  destruct (IH s1) as [l' Hl'].
  { intros z Hz. apply H. by apply list_elem_of_further. }
  destruct (for_each body l s1) as [s2 [l''|e]]; [|done]. eauto.
Qed.

Lemma then_wrap_returns {A B} (f : A -> B) (r : St * Res A) :
  (exists x, r.2 = Ok x) -> exists y, (then_wrap f r).2 = Ok y.
Proof. intros [x Hx]. destruct r as [s [a|e]]; [|done]. by exists (f a). Qed.

Lemma translate_long_returns el st : exists y, (translate_long cfg el st).2 = Ok y.
Proof.
  destruct el as [| | |t| |]; simpl; eauto.
  destruct (2 <? length t); [|by eauto].
  apply then_wrap_returns. by apply translate_unlimited.
Qed.

Lemma walk_section_returns items st :
  section_ok items = true -> exists y, (walk_section cfg items st).2 = Ok y.
Proof.
  destruct items as [| | | |l|]; try done. intros H. cbn [walk_section].
  apply then_wrap_returns. apply for_each_returns.
  intros x Hx s. pose proof (forallb_true_elem _ _ _ H Hx) as Hs.
  destruct x; try done. cbn [translate_value].
  apply then_wrap_returns. by apply translate_unlimited.
Qed.

Section WithRec.
Context (rec : json -> St -> St * Res json).

Lemma walk_again_returns orig new st :
  (forall x, x ∈ orig -> forall s, exists y, (rec x s).2 = Ok y) ->
  exists l, (walk_again rec orig new st).2 = Ok l.
Proof.
  revert new st. induction orig as [|x orig IH]; intros new st H.
  - destruct new; by eauto.
  - destruct new as [|y new]; [by eauto|]. cbn [walk_again].
    assert (exists y', (match x with JStr _ => (st, Ok y) | _ => rec x st end).2 = Ok y')
      as [y' Hy'].
    { pose proof (H x (list_elem_of_here _ _) st). destruct x; by eauto. }
    destruct (match x with JStr _ => (st, Ok y) | _ => rec x st end) as [s1 [y''|e]]; [|done].
    destruct (IH new s1) as [l Hl].
    { intros z Hz. apply H. by apply list_elem_of_further. }
    destruct (walk_again rec orig new s1) as [s2 [l'|e]]; [|done]. eauto.
Qed.

Lemma walk_entry_returns entry st :
  other_ok entry = true ->
  (forall x, json_size x <= json_size entry -> other_ok x = true ->
     forall s, exists y, (rec x s).2 = Ok y) ->
  exists y, (walk_entry cfg rec entry st).2 = Ok y.
Proof.
  intros Hok Hr. destruct entry as [| | |t|els|d]; cbn [walk_entry]; try (by apply Hr).
  - apply then_wrap_returns. by apply translate_unlimited.
  - destruct (for_each_returns (translate_long cfg) els st) as [els' Hels].
    { intros x _ s. apply translate_long_returns. }
    destruct (for_each (translate_long cfg) els st) as [s1 [els''|e]]; [|done].
    apply then_wrap_returns. apply walk_again_returns.
    intros x Hx. apply Hr.
    + apply json_size_elem in Hx. simpl. lia.
    + simpl in Hok. by eapply forallb_true_elem.
Qed.

Lemma walk_field_returns data k v st :
  field_ok other_ok k v = true ->
  (forall x, json_size x <= json_size v -> other_ok x = true ->
     forall s, exists y, (rec x s).2 = Ok y) ->
  exists y, (walk_field cfg rec data k v st).2 = Ok y.
Proof.
  intros Hok Hr. destruct v as [| | |t|l|d]; cbn [walk_field field_ok] in *;
    try (by apply Hr).
  - destruct (key_in k _); [|by apply Hr].
    apply then_wrap_returns. by apply translate_unlimited.
  - destruct (key_in k named_fields); [|by apply Hr].
    destruct (bool_decide (k = txt "items") && type_is_not_list data); [by eauto|].
    apply then_wrap_returns. apply for_each_returns.
    intros entry He s. simpl in Hok. apply walk_entry_returns.
    + by eapply forallb_true_elem.
    + intros x Hx. apply Hr. apply json_size_elem in He. simpl. lia.
  - destruct (bool_decide (k = txt "other")); [|by apply Hr].
    apply then_wrap_returns. apply for_each_returns.
    intros [section items] Hin s. apply then_wrap_returns.
    apply walk_section_returns. by apply (forallb_true_elem _ _ _ Hok Hin).
Qed.

Lemma walk_fields_returns seen todo st :
  (forall k v, (k, v) ∈ todo ->
     field_ok other_ok k v = true /\
     forall x, json_size x <= json_size v -> other_ok x = true ->
       forall s, exists y, (rec x s).2 = Ok y) ->
  exists dd, (walk_fields cfg rec seen todo st).2 = Ok dd.
Proof.
  revert seen st. induction todo as [|[k v] todo IH]; intros seen st H; [by eauto|].
  cbn [walk_fields]. destruct (H k v (list_elem_of_here _ _)) as [Hok Hr].
  destruct (walk_field_returns (seen ++ (k, v) :: todo) k v st Hok Hr) as [v' Hv'].
  destruct (walk_field cfg rec (seen ++ (k, v) :: todo) k v st) as [s1 [v''|e]]; [|done].
  apply IH. intros k' w' Hin. apply H. by apply list_elem_of_further.
Qed.

End WithRec.

Lemma translate_data_returns_sized (n : nat) (d : json) (st : St) :
  json_size d <= n -> other_ok d = true -> exists d', (translate_data cfg d st).2 = Ok d'.
Proof.
  revert d st. induction n as [|n IH]; intros d st Hn Hok.
  - destruct d; simpl in Hn; lia.
  - destruct d as [| | |t|l|fs]; try (by eauto).
    + rewrite translate_data_list. apply then_wrap_returns. apply for_each_returns.
      intros x Hx s. apply IH.
      * apply json_size_elem in Hx. simpl in Hn. lia.
      * simpl in Hok. by eapply forallb_true_elem.
    + rewrite translate_data_dict. apply then_wrap_returns. apply walk_fields_returns.
      intros k v Hin. split.
      * simpl in Hok. by apply (forallb_true_elem _ _ _ Hok Hin).
      * intros x Hx Hxok s. apply IH; [|done].
        apply json_size_field in Hin. simpl in Hn. lia.
Qed.

(** With no time limit, the walk of a document can only fail on a
    malformed [other] field: when every mapping found under a field
    [other] holds nothing but lists of strings, the walk of a document
    nested no deeper than the interpreter can follow returns a document,
    whatever the provider does. *)
Theorem walk_returns_when_unlimited (d : json) (st : St) :
  json_depth d <= nesting_bound ->
  other_ok d = true -> exists d', (translate_data cfg d st).2 = Ok d'.
Proof. intros _. by apply (translate_data_returns_sized (json_size d)). Qed.

End Returns.

Lemma walk_returns_when_unlimited_witness :
  exists d',
    (translate_data (stub always_fails false)
       (JDict [(txt "other",
                JDict [(txt "notes", JList [JStr (txt "Deals 1d6 damage");
                                            JStr (txt "Stacks with {bonus}")])])])
       (service0, world0)).2 = Ok d'.
Proof.
  apply (walk_returns_when_unlimited (stub always_fails false)).
  - by vm_compute.
  - vm_compute. lia.
  - by vm_compute.
Defined.

(** ** Paths *)

Lemma replace_all_from_absent (old new s : text) :
  contains old s = false -> replace_all_from old new 0 s = s.
Proof.
  induction s as [|c s IH]; intros H; [done|].
  apply contains_cons_false in H as [Hs Hc].
  cbn [replace_all_from]. rewrite Hs. by rewrite IH.
Qed.

Lemma replace_all_from_skip (old new a rest : text) :
  replace_all_from old new (length a) (a ++ rest) = replace_all_from old new 0 rest.
Proof.
  induction a as [|c a IH]; [done|]. cbn [length app replace_all_from]. exact IH.
Qed.

Lemma replace_all_here (c : ascii) (old new rest : text) :
  replace_all (c :: old) new ((c :: old) ++ rest) = new ++ replace_all (c :: old) new rest.
Proof.
  unfold replace_all. cbn [app replace_all_from].
  change (c :: old ++ rest) with ((c :: old) ++ rest). rewrite startswith_app.
  replace (length (c :: old) - 1) with (length old) by (simpl; lia).
  by rewrite replace_all_from_skip.
Qed.

(** How the two paths of a document are made: for a file directly under
    [data/], with no further [data/] in its name, the leading [data/] is
    replaced by the cache directory and by the output directory of the
    language. *)
Theorem paths_of_data_file (language rest : text) :
  contains (txt "data/") rest = false ->
  cache_path language (txt "data/" ++ rest)
    = txt "translation/cache/" ++ language ++ txt "/" ++ rest /\
  output_path language (txt "data/" ++ rest) = txt "data." ++ language ++ txt "/" ++ rest.
Proof.
  intros H. unfold cache_path, output_path.
  change (txt "data/") with ("d"%char :: txt "ata/").
  rewrite !replace_all_here. unfold replace_all.
  change ("d"%char :: txt "ata/") with (txt "data/").
  rewrite !replace_all_from_absent by done.
  by rewrite <- !app_assoc.
Qed.

Lemma paths_of_data_file_witness :
  cache_path (txt "it") (txt "data/" ++ txt "spells/fire.json")
    = txt "translation/cache/" ++ txt "it" ++ txt "/" ++ txt "spells/fire.json" /\
  output_path (txt "it") (txt "data/" ++ txt "spells/fire.json")
    = txt "data." ++ txt "it" ++ txt "/" ++ txt "spells/fire.json".
Proof.
  apply (paths_of_data_file (txt "it") (txt "spells/fire.json")). by vm_compute.
Defined.

(** A file whose name holds no [data/] is mapped to itself: its cache file
    and its output file are the file itself. *)
Theorem paths_outside_data (language file : text) :
  contains (txt "data/") file = false ->
  cache_path language file = file /\ output_path language file = file.
Proof.
  intros H. unfold cache_path, output_path, replace_all.
  by rewrite !replace_all_from_absent.
Qed.

Lemma paths_outside_data_witness :
  cache_path (txt "it") (txt "spells.json") = txt "spells.json" /\
  output_path (txt "it") (txt "spells.json") = txt "spells.json".
Proof. apply (paths_outside_data (txt "it") (txt "spells.json")). by vm_compute. Defined.

(** ** Opening and closing the cache scope *)

Lemma init_raise (language file : text) (w w0 : World) (e : pyexn) :
  TranslatorService_init language file w = (w0, Raise e) -> w0 = w.
Proof.
  unfold TranslatorService_init. destruct (assoc language supported_languages).
  - destruct (cache_files w !! file) as [[m| |]|]; intros H; by inversion H.
  - intros H. by inversion H.
Qed.

Lemma init_ok (language file : text) (w w0 : World) (tr0 : Translator) :
  TranslatorService_init language file w = (w0, Ok tr0) ->
  disk w0 = disk w /\ calls w0 = calls w /\ cacheDirty tr0 = false /\ charCount tr0 = 0.
Proof.
  unfold TranslatorService_init. destruct (assoc language supported_languages); [|done].
  destruct (cache_files w !! file) as [[m| |]|]; intros H; inversion H; subst; done.
Qed.

(** For the supported language the constructor fails only on a cache file
    it cannot read. *)
Lemma init_returns (file : text) (w : World) :
  cache_files w !! file <> Some CacheUnreadable ->
  exists w0 tr0, TranslatorService_init (txt "it") file w = (w0, Ok tr0).
Proof.
  intros Hr. unfold TranslatorService_init.
  change (assoc (txt "it") supported_languages) with (Some (txt "it")). cbv iota beta.
  destruct (cache_files w !! file) as [[m| |]|]; [| |done|]; by eexists _, _.
Qed.

(** The constructor leaves the world as it is, but for the warning. *)
Lemma init_keeps (P : World -> Prop) (language file : text) (w w0 : World) (r : Res Translator) :
  (forall e w1, P w1 -> P (log e w1)) ->
  P w -> TranslatorService_init language file w = (w0, r) -> P w0.
Proof.
  intros Hl HP. unfold TranslatorService_init.
  destruct (assoc language supported_languages).
  - destruct (cache_files w !! file) as [[m| |]|]; intros H; inversion H; subst; auto.
  - intros H. inversion H. by subst.
Qed.

Lemma exit_frame (cfg : Config) (tr : Translator) (w : World) :
  output_files (TranslatorService_exit cfg None tr w).2 = output_files w /\
  data_files (TranslatorService_exit cfg None tr w).2 = data_files w /\
  calls (TranslatorService_exit cfg None tr w).2 = calls w /\
  todoCharCounter (TranslatorService_exit cfg None tr w).2 = todoCharCounter w /\
  currentFileIndex (TranslatorService_exit cfg None tr w).2 = currentFileIndex w /\
  fsops (TranslatorService_exit cfg None tr w).2 = fsops w.
Proof.
  unfold TranslatorService_exit, cacheSync.
  destruct (disableCacheSave cfg); cbn [negb]; [done|].
  destruct (cacheDirty tr); [|done].
  cbn [log ioops bump_ioops set_cache_files].
  destruct (io_fault cfg (ioops w)); [|done|done].
  cbn [log ioops bump_ioops set_cache_files].
  by destruct (io_fault cfg (S (ioops w))).
Qed.

Lemma exit_idle (cfg : Config) (tr : Translator) (w : World) :
  cacheDirty tr = false \/ disableCacheSave cfg = true ->
  cache_files (TranslatorService_exit cfg None tr w).2 = cache_files w /\
  ioops (TranslatorService_exit cfg None tr w).2 = ioops w.
Proof.
  unfold TranslatorService_exit, cacheSync. intros H.
  destruct (disableCacheSave cfg); cbn [negb]; [done|].
  destruct H as [->|H]; done.
Qed.

(** Closing the scope leaves no cache file that cannot be read: what it
    writes is a mapping or, after a fault, an unfinished temporary file. *)
Lemma exit_readable (cfg : Config) (tr : Translator) (w : World) :
  caches_readable w -> caches_readable (TranslatorService_exit cfg None tr w).2.
Proof.
  intros Hr. unfold TranslatorService_exit, cacheSync.
  destruct (disableCacheSave cfg); cbn [negb]; [done|].
  destruct (cacheDirty tr); [|done].
  cbn [log ioops bump_ioops set_cache_files].
  destruct (io_fault cfg (ioops w)).
  - cbn [log ioops bump_ioops set_cache_files].
    destruct (io_fault cfg (S (ioops w))); intros p Hp; cbn in Hp.
    + apply lookup_insert_Some in Hp as [[_ Hp]|[_ Hp]]; [done|].
      apply lookup_delete_Some in Hp as [_ Hp].
      apply lookup_insert_Some in Hp as [[_ Hp]|[_ Hp]]; [done|]. by apply (Hr p).
    + apply lookup_insert_Some in Hp as [[_ Hp]|[_ Hp]]; [done|]. by apply (Hr p).
    + apply lookup_insert_Some in Hp as [[_ Hp]|[_ Hp]]; [done|]. by apply (Hr p).
  - intros p Hp. cbn in Hp. by apply (Hr p).
  - intros p Hp. cbn in Hp.
    apply lookup_insert_Some in Hp as [[_ Hp]|[_ Hp]]; [done|]. by apply (Hr p).
Qed.

(** What a cache scope saves when it is closed, the next scope opened on
    the same file loads: after a close that wrote the mapping without a
    fault, opening the cache file yields a service that holds exactly that
    mapping, with a clean flag and counters at zero. *)
Theorem close_then_open_restores_cache (cfg : Config) (tr : Translator) (w : World) :
  cacheDirty tr = true -> disableCacheSave cfg = false ->
  io_fault cfg (ioops w) = IoOk -> io_fault cfg (S (ioops w)) = IoOk ->
  TranslatorService_init (txt "it") (cacheFile tr) (TranslatorService_exit cfg None tr w).2
  = ((TranslatorService_exit cfg None tr w).2,
     Ok {| target_lang := txt "it"; cacheFile := cacheFile tr; cacheDirty := false;
           cacheData := cacheData tr; charCount := 0; cachedCharCount := 0 |}).
Proof.
  intros Hd Hen H1 H2.
  unfold TranslatorService_exit, cacheSync. rewrite Hen, Hd. cbn [negb].
  cbn [log ioops bump_ioops set_cache_files]. rewrite H1.
  cbn [log ioops bump_ioops set_cache_files]. rewrite H2.
  unfold TranslatorService_init.
  change (assoc (txt "it") supported_languages) with (Some (txt "it")). cbv iota beta.
  cbn [snd log cache_files set_cache_files bump_ioops]. by rewrite lookup_insert_eq.
Qed.

Lemma close_then_open_restores_cache_witness :
  TranslatorService_init (txt "it")
    (cacheFile (translate (stub answers false) sample (service0, world0)).1.1)
    (TranslatorService_exit (stub answers false) None
       (translate (stub answers false) sample (service0, world0)).1.1 world0).2
  = ((TranslatorService_exit (stub answers false) None
        (translate (stub answers false) sample (service0, world0)).1.1 world0).2,
     Ok {| target_lang := txt "it";
           cacheFile := cacheFile (translate (stub answers false) sample (service0, world0)).1.1;
           cacheDirty := false;
           cacheData := cacheData (translate (stub answers false) sample (service0, world0)).1.1;
           charCount := 0; cachedCharCount := 0 |}).
Proof.
  apply (close_then_open_restores_cache (stub answers false)
           (translate (stub answers false) sample (service0, world0)).1.1 world0);
    by vm_compute.
Defined.

(** ** One document *)

Lemma startswith_inv (p s : text) : startswith p s = true -> exists r, s = p ++ r.
Proof.
  revert s. induction p as [|a p IH]; intros s H; [by exists s|].
  destruct s as [|b s]; [done|]. simpl in H.
  apply andb_true_iff in H as [Hab H]. apply Ascii.eqb_eq in Hab as ->.
  destruct (IH _ H) as [r ->]. by exists r.
Qed.

(** The cache file and the output file of a document under [data/] lie in
    a directory. *)
Lemma dirname_of_data_file (language file : text) :
  startswith (txt "data/") file = true ->
  dirname_empty (cache_path language file) = false /\
  dirname_empty (output_path language file) = false.
Proof.
  intros H. apply startswith_inv in H as [rest ->].
  unfold cache_path, output_path, dirname_empty.
  change (txt "data/") with ("d"%char :: txt "ata/").
  rewrite !replace_all_here. rewrite !existsb_app.
  assert (existsb (Ascii.eqb "/") (txt "translation/cache/") = true) as -> by by vm_compute.
  assert (existsb (Ascii.eqb "/") (txt "/") = true) as -> by by vm_compute.
  by rewrite !orb_true_r.
Qed.

(** A name without a slash holds no [data/]. *)
Lemma no_slash_no_data (file : text) :
  dirname_empty file = true -> contains (txt "data/") file = false.
Proof.
  unfold dirname_empty. intros H. apply negb_true_iff in H.
  induction file as [|c file IH]; [done|].
  simpl in H. apply orb_false_iff in H as [Hc H].
  cbn [contains]. rewrite (IH H), orb_false_r.
  destruct (startswith (txt "data/") (c :: file)) eqn:E; [|done].
  apply startswith_inv in E as [r E]. exfalso.
  assert (existsb (Ascii.eqb "/") (c :: file) = true) as Hs.
  { rewrite E, existsb_app. by vm_compute. }
  simpl in Hs. rewrite Hc, H in Hs. done.
Qed.

Section OneFile.
Context (cfg : Config).

(** What every step of [translate_file] up to the writing of the output
    keeps, [translate_file] keeps up to there; [Q] is what follows for
    its outcome. *)
Lemma translate_file_keeps (P : World -> Prop) (Q : World * Res unit -> Prop)
    (language file : text) (writeJSON : bool) (w : World) :
  (forall w1, P w1 -> P (bump_fsops w1)) ->
  (forall e w1, P w1 -> P (log e w1)) ->
  (forall n w1, P w1 -> P (set_todoCharCounter n w1)) ->
  (forall d st, P st.2 -> P (translate_data cfg d st).1.2) ->
  (forall tr w1, P w1 -> P (TranslatorService_exit cfg None tr w1).2) ->
  (forall w1 e, P w1 -> Q (w1, Raise e)) ->
  (forall w1, P w1 -> writeJSON = false -> Q (w1, Ok tt)) ->
  (forall w1 data, P w1 -> writeJSON = true -> data <> OutTruncated ->
     Q (write_output cfg (output_path language file) data w1)) ->
  P w -> Q (translate_file cfg language file writeJSON w).
Proof.
  intros Hb Hl Ht Hw Hx Qr Qn Qw HP.
  unfold translate_file, makedirs_dirname, output_path.
  destruct (dirname_empty _); [by apply Qr|].
  destruct (fs_fault cfg (fsops w)); [|apply Qr; auto..].
  destruct (dirname_empty _); [apply Qr; auto|].
  destruct (fs_fault cfg (fsops (bump_fsops w))); [|apply Qr; auto..].
  destruct (TranslatorService_init language _ _) as [w0 [tr0|e]] eqn:Ei.
  2:{ apply Qr. eapply init_keeps; [exact Hl| |exact Ei]. auto. }
  assert (P w0) as HP0 by (eapply init_keeps; [exact Hl| |exact Ei]; auto).
  assert (forall tr1 w1 data, P w1 -> data <> OutTruncated ->
            Q (let w2 := log (EvStats (cachedCharCount tr1) (charCount tr1)) w1 in
               let w3 := set_todoCharCounter (todoCharCounter w2 + charCount tr1) w2 in
               let '(_, w4) := TranslatorService_exit cfg None tr1 w3 in
               if writeJSON
               then write_output cfg
                      (replace_all (txt "data/") (txt "data." ++ language ++ txt "/") file)
                      data w4
               else (w4, Ok tt))) as Htail.
  { intros tr1 w1 data H1 Hdata. cbv zeta.
    pose proof (Hx tr1 _ (Ht (todoCharCounter (log (EvStats (cachedCharCount tr1)
                                                      (charCount tr1)) w1) + charCount tr1)
                            _ (Hl (EvStats (cachedCharCount tr1) (charCount tr1)) _ H1)))
      as H4.
    destruct (TranslatorService_exit cfg None tr1 _) as [tr2 w4]. cbn [snd] in H4.
    destruct writeJSON; [by apply Qw|by apply Qn]. }
  destruct (data_files w0 !! file) as [[d|]|].
  - pose proof (Hw d (tr0, w0) HP0) as H1.
    destruct (translate_data cfg d (tr0, w0)) as [[tr1 w1] [d'|e]]; cbn [fst snd] in H1.
    + by apply Htail.
    + apply Htail; [by apply Hl|done].
  - apply Htail; [by apply Hl|done].
  - apply Htail; [by apply Hl|done].
Qed.

(** [translate_file] writes at most one output file, the one the name of
    the document is mapped to. Nothing is written when [writeJSON] is off
    or when the call fails before the writing or at its opening; a call
    that returns with [writeJSON] on has written exactly this file; a write
    that fails half-way leaves this file unfinished. *)
Theorem translate_file_writes_one_output (language file : text) (writeJSON : bool)
    (w : World) :
  startswith (txt "data/") file = true ->
  (output_files (translate_file cfg language file writeJSON w).1 = output_files w /\
   (writeJSON = false \/ (translate_file cfg language file writeJSON w).2 <> Ok tt)) \/
  (writeJSON = true /\
   (translate_file cfg language file writeJSON w).2 = Ok tt /\
   exists data,
     data <> OutTruncated /\
     output_files (translate_file cfg language file writeJSON w).1
     = <[output_path language file := data]> (output_files w)) \/
  (writeJSON = true /\
   (translate_file cfg language file writeJSON w).2 = Raise OSError /\
   output_files (translate_file cfg language file writeJSON w).1
   = <[output_path language file := OutTruncated]> (output_files w)).
Proof.
  intros _.
  apply (translate_file_keeps (fun w1 => output_files w1 = output_files w)
           (fun r =>
              (output_files r.1 = output_files w /\ (writeJSON = false \/ r.2 <> Ok tt)) \/
              (writeJSON = true /\ r.2 = Ok tt /\
               exists data, data <> OutTruncated /\
                 output_files r.1 = <[output_path language file := data]> (output_files w)) \/
              (writeJSON = true /\ r.2 = Raise OSError /\
               output_files r.1
               = <[output_path language file := OutTruncated]> (output_files w)))); try done.
  - intros d st H. destruct (walk_no_file cfg d st) as (_ & _ & -> & _). done.
  - intros tr w1 H. destruct (exit_frame cfg tr w1) as (-> & _). done.
  - intros w1 e H. left. split; [done|]. by right.
  - intros w1 H Hw. left. split; [done|]. by left.
  - intros w1 data H Hw Hdata. unfold write_output.
    destruct (fs_fault cfg (fsops w1)); cbn; rewrite H.
    + right. left. split; [done|]. split; [done|]. by exists data.
    + left. split; [done|]. by right.
    + right. right. done.
Qed.


Lemma translate_file_index (language file : text) (writeJSON : bool) (w : World) :
  currentFileIndex (translate_file cfg language file writeJSON w).1 = currentFileIndex w.
Proof.
  apply (translate_file_keeps
           (fun w1 => currentFileIndex w1 = currentFileIndex w)
           (fun r => currentFileIndex r.1 = currentFileIndex w)); try done.
  - intros d st H. destruct (walk_no_file cfg d st) as (_ & _ & _ & _ & _ & -> & _). done.
  - intros tr w1 H. destruct (exit_frame cfg tr w1) as (_ & _ & _ & _ & -> & _). done.
  - intros w1 data H _ _. unfold write_output. by destruct (fs_fault cfg (fsops w1)).
Qed.

Lemma translate_file_readable (language file : text) (writeJSON : bool) (w : World) :
  caches_readable w -> caches_readable (translate_file cfg language file writeJSON w).1.
Proof.
  apply (translate_file_keeps caches_readable (fun r => caches_readable r.1)); try done.
  - intros d st H p. destruct (walk_no_file cfg d st) as (-> & _). apply H.
  - intros tr w1 H. by apply exit_readable.
  - intros w1 data H _ _. unfold write_output. by destruct (fs_fault cfg (fsops w1)).
Qed.

(** For the supported language and a document under [data/],
    [translate_file] returns normally when the file system does what it is
    asked and the cache file can be read: whatever the reading or the walk
    of the document raises, the deadline included, is caught. *)
Lemma translate_file_returns (file : text) (writeJSON : bool) (w : World) :
  no_fs_fault cfg ->
  startswith (txt "data/") file = true ->
  cache_files w !! cache_path (txt "it") file <> Some CacheUnreadable ->
  (translate_file cfg (txt "it") file writeJSON w).2 = Ok tt.
Proof.
  intros Hfs Hdata Hread.
  destruct (dirname_of_data_file (txt "it") file Hdata) as [D1 D2].
  unfold cache_path in D1, Hread. unfold output_path in D2.
  unfold translate_file, makedirs_dirname.
  rewrite D1, (Hfs (fsops w)), D2, (Hfs (fsops (bump_fsops w))).
  destruct (init_returns _ (bump_fsops (bump_fsops w)) Hread) as (w0 & tr0 & ->).
  assert (forall tr1 w1 (data : output_file),
            (let w2 := log (EvStats (cachedCharCount tr1) (charCount tr1)) w1 in
             let w3 := set_todoCharCounter (todoCharCounter w2 + charCount tr1) w2 in
             let '(_, w4) := TranslatorService_exit cfg None tr1 w3 in
             if writeJSON
             then write_output cfg
                    (replace_all (txt "data/") (txt "data." ++ txt "it" ++ txt "/") file)
                    data w4
             else (w4, Ok tt)).2 = Ok tt) as Htail.
  { intros tr1 w1 data. cbv zeta.
    destruct (TranslatorService_exit cfg None tr1 _) as [tr2 w4].
    destruct writeJSON; [|done]. unfold write_output. by rewrite (Hfs (fsops w4)). }
  destruct (data_files w0 !! file) as [[d|]|]; [|apply Htail..].
  destruct (translate_data cfg d (tr0, w0)) as [[tr1 w1] [d'|e]]; apply Htail.
Qed.

(** A document that cannot be opened or parsed is not an error for the
    run: nothing is translated, no cache file is touched, and when the
    call returns the empty object [{}] has been written as its output. The
    call does return when the file system does what it is asked and the
    cache file can be read. *)
Theorem unreadable_input_gives_empty_output (file : text) (w : World) :
  startswith (txt "data/") file = true ->
  data_files w !! file = None \/ data_files w !! file = Some DataCorrupt ->
  calls (translate_file cfg (txt "it") file true w).1 = calls w /\
  ioops (translate_file cfg (txt "it") file true w).1 = ioops w /\
  cache_files (translate_file cfg (txt "it") file true w).1 = cache_files w /\
  todoCharCounter (translate_file cfg (txt "it") file true w).1 = todoCharCounter w /\
  ((translate_file cfg (txt "it") file true w).2 = Ok tt ->
   output_files (translate_file cfg (txt "it") file true w).1
   = <[output_path (txt "it") file := OutJson (JDict [])]> (output_files w)) /\
  (no_fs_fault cfg ->
   cache_files w !! cache_path (txt "it") file <> Some CacheUnreadable ->
   (translate_file cfg (txt "it") file true w).2 = Ok tt).
Proof.
  intros Hdata Hfile.
  split_and!; [..|intros; by apply translate_file_returns].
  all: unfold translate_file, makedirs_dirname.
  all: destruct (dirname_empty _); [done|].
  all: destruct (fs_fault cfg (fsops w)); [|done..].
  all: destruct (dirname_empty _); [done|].
  all: destruct (fs_fault cfg (fsops (bump_fsops w))); [|done..].
  all: destruct (TranslatorService_init (txt "it") _ _) as [w0 [tr0|e]] eqn:Ei;
    [|apply init_raise in Ei; by subst].
  all: apply init_ok in Ei as (Hdisk & Hcalls & Hdirty & Hcount).
  all: unfold disk in Hdisk; inversion Hdisk as [[Hc Hdf Ho Hio Ht Hi Hfs]].
  all: cbn [bump_fsops cache_files data_files output_files ioops todoCharCounter calls] in *.
  all: destruct (data_files w0 !! file) as [[d|]|] eqn:E;
    [rewrite Hdf in E; destruct Hfile as [Hf|Hf]; rewrite Hf in E; done|..].
  all: cbv zeta.
  all: match goal with
       | Hd : cacheDirty ?t = false |- context [TranslatorService_exit cfg None ?t ?w2] =>
           destruct (exit_frame cfg t w2) as (Eo & _ & Ec & Et & _);
           destruct (exit_idle cfg t w2 (or_introl Hd)) as (Ecf & Eio);
           destruct (TranslatorService_exit cfg None t w2) as [tr3 w3]
       end.
  all: cbn [fst snd log set_todoCharCounter output_files calls ioops cache_files
            todoCharCounter] in *.
  all: unfold write_output; destruct (fs_fault cfg (fsops w3));
    cbn [fst snd log set_output_files bump_fsops output_files calls ioops cache_files
         todoCharCounter].
  all: try done.
  all: try (rewrite Hcount in Et; lia).
  all: try congruence.
  all: try (intros _; unfold output_path; congruence).
Qed.

End OneFile.

Lemma translate_file_writes_one_output_witness :
  (output_files (translate_file late_cfg (txt "it") (txt "data/b.json") true late_world).1
   = output_files late_world /\
   (true = false \/
    (translate_file late_cfg (txt "it") (txt "data/b.json") true late_world).2 <> Ok tt)) \/
  (true = true /\
   (translate_file late_cfg (txt "it") (txt "data/b.json") true late_world).2 = Ok tt /\
   exists data,
     data <> OutTruncated /\
     output_files (translate_file late_cfg (txt "it") (txt "data/b.json") true late_world).1
     = <[output_path (txt "it") (txt "data/b.json") := data]> (output_files late_world)) \/
  (true = true /\
   (translate_file late_cfg (txt "it") (txt "data/b.json") true late_world).2 = Raise OSError /\
   output_files (translate_file late_cfg (txt "it") (txt "data/b.json") true late_world).1
   = <[output_path (txt "it") (txt "data/b.json") := OutTruncated]>
       (output_files late_world)).
Proof.
  apply (translate_file_writes_one_output late_cfg (txt "it") (txt "data/b.json") true
           late_world).
  by vm_compute.
Defined.

Lemma unreadable_input_gives_empty_output_witness :
  calls (translate_file (stub answers false) (txt "it") (txt "data/missing.json") true world0).1
    = calls world0 /\
  ioops (translate_file (stub answers false) (txt "it") (txt "data/missing.json") true world0).1
    = ioops world0 /\
  cache_files
    (translate_file (stub answers false) (txt "it") (txt "data/missing.json") true world0).1
    = cache_files world0 /\
  todoCharCounter
    (translate_file (stub answers false) (txt "it") (txt "data/missing.json") true world0).1
    = todoCharCounter world0 /\
  ((translate_file (stub answers false) (txt "it") (txt "data/missing.json") true world0).2
     = Ok tt ->
   output_files
     (translate_file (stub answers false) (txt "it") (txt "data/missing.json") true world0).1
   = <[output_path (txt "it") (txt "data/missing.json") := OutJson (JDict [])]>
       (output_files world0)) /\
  (no_fs_fault (stub answers false) ->
   cache_files world0 !! cache_path (txt "it") (txt "data/missing.json")
     <> Some CacheUnreadable ->
   (translate_file (stub answers false) (txt "it") (txt "data/missing.json") true world0).2
     = Ok tt).
Proof.
  apply (unreadable_input_gives_empty_output (stub answers false) (txt "data/missing.json")
           world0).
  - by vm_compute.
  - left. by vm_compute.
Defined.


(** ** The main loop *)

Section MainLoop.
Context (cfg : Config).

(** The main loop over documents under [data/], with a file system that
    does what it is asked and cache files that can be read: it goes
    through the whole list. *)
Lemma main_loop_run (writeJSON : bool) (files : list text) (w : World) :
  no_fs_fault cfg ->
  Forall (fun f => startswith (txt "data/") f = true) files ->
  caches_readable w ->
  (main_loop cfg (txt "it") writeJSON files w).2 = Ok tt /\
  currentFileIndex (main_loop cfg (txt "it") writeJSON files w).1
  = currentFileIndex w + length files.
Proof.
  intros Hfs Hfiles. revert w. induction Hfiles as [|file files Hfile _ IH]; intros w Hr.
  - simpl. split; [done|lia].
  - cbn [main_loop length].
    set (w1 := log _ (set_currentFileIndex (S (currentFileIndex w)) w)).
    assert (currentFileIndex w1 = S (currentFileIndex w)) as H1 by done.
    assert (caches_readable w1) as Hr1 by exact Hr.
    destruct (startswith (txt "data/generated") file).
    + destruct (IH w1 Hr1) as [-> ->]. split; [done|lia].
    + pose proof (translate_file_returns cfg file writeJSON w1 Hfs Hfile (Hr1 _)) as Hok.
      pose proof (translate_file_index cfg (txt "it") file writeJSON w1) as Hi.
      pose proof (translate_file_readable cfg (txt "it") file writeJSON w1 Hr1) as Hr2.
      destruct (translate_file cfg (txt "it") file writeJSON w1) as [w2 [[]|e]]; [|done].
      cbn [fst] in Hi, Hr2. destruct (IH w2 Hr2) as [-> ->]. split; [done|lia].
Qed.

(** So no exception of the walk of a document, the deadline included, can
    stop the main loop: it stops early only when [translate_file] fails
    outside its [try], on a directory it cannot make, a cache file it
    cannot read or an output file it cannot write. *)
Lemma main_loop_never_aborts (writeJSON : bool) (files : list text) (w : World) :
  no_fs_fault cfg ->
  Forall (fun f => startswith (txt "data/") f = true) files ->
  caches_readable w ->
  (main_loop cfg (txt "it") writeJSON files w).2 = Ok tt.
Proof. intros Hfs Hfiles Hr. by apply main_loop_run. Qed.

(** For the supported language, documents under [data/], a file system
    that does what it is asked and cache files that can be read, the main
    loop visits every file it is given and the closing summary counts them
    all as processed, those skipped under [data/generated] and those whose
    walk raised included: the index of the last file equals the number of
    files. *)
Theorem main_counts_every_file (writeJSON : bool) (files : list text) (w : World) :
  files <> [] ->
  Forall (fun f => startswith (txt "data/") f = true) files ->
  no_fs_fault cfg ->
  caches_readable w ->
  (main cfg (txt "it") writeJSON files w).2 = Ok tt /\
  currentFileIndex (main cfg (txt "it") writeJSON files w).1 = length files /\
  exists evs,
    trace (main cfg (txt "it") writeJSON files w).1
    = evs ++ [EvComplete (length files) (length files)
                (todoCharCounter (main cfg (txt "it") writeJSON files w).1)].
Proof.
  intros Hne Hfiles Hfs Hr. unfold main.
  change (assoc (txt "it") supported_languages) with (Some (txt "it")). cbv iota beta.
  destruct files as [|f files]; [done|].
  destruct (main_loop_run writeJSON (f :: files) (set_currentFileIndex 0 w) Hfs Hfiles Hr)
    as [Hok Hn].
  destruct (main_loop cfg (txt "it") writeJSON (f :: files) (set_currentFileIndex 0 w))
    as [w1 [[]|e]]; [|done].
  cbn [fst snd] in *. cbn [currentFileIndex set_currentFileIndex] in Hn.
  cbn [log currentFileIndex trace todoCharCounter]. rewrite Hn.
  split; [done|]. split; [done|]. by eexists.
Qed.

(** Files under [data/generated] are only counted: a list of such files
    goes through the main loop without a provider call, without any file
    being read or written, and with the character total unchanged. *)
Theorem generated_files_are_only_counted (language : text) (writeJSON : bool)
    (files : list text) (w : World) :
  Forall (fun f => startswith (txt "data/generated") f = true) files ->
  (main_loop cfg language writeJSON files w).2 = Ok tt /\
  calls (main_loop cfg language writeJSON files w).1 = calls w /\
  ioops (main_loop cfg language writeJSON files w).1 = ioops w /\
  cache_files (main_loop cfg language writeJSON files w).1 = cache_files w /\
  output_files (main_loop cfg language writeJSON files w).1 = output_files w /\
  todoCharCounter (main_loop cfg language writeJSON files w).1 = todoCharCounter w /\
  currentFileIndex (main_loop cfg language writeJSON files w).1
    = currentFileIndex w + length files.
Proof.
  intros H. revert w. induction H as [|f files Hf _ IH]; intros w.
  - simpl. repeat split; lia.
  - cbn [main_loop length]. rewrite Hf.
    destruct (IH (log (EvFileHeader
                         (currentFileIndex (set_currentFileIndex (S (currentFileIndex w)) w)) f)
                    (set_currentFileIndex (S (currentFileIndex w)) w)))
      as (-> & -> & -> & -> & -> & -> & ->).
    cbn [log set_currentFileIndex calls ioops cache_files output_files todoCharCounter
         currentFileIndex].
    repeat split; lia.
Qed.

End MainLoop.

Lemma main_counts_every_file_witness :
  (main late_cfg (txt "it") true [txt "data/a.json"; txt "data/b.json"] late_world).2 = Ok tt /\
  currentFileIndex
    (main late_cfg (txt "it") true [txt "data/a.json"; txt "data/b.json"] late_world).1 = 2 /\
  exists evs,
    trace (main late_cfg (txt "it") true [txt "data/a.json"; txt "data/b.json"] late_world).1
    = evs ++ [EvComplete 2 2
                (todoCharCounter
                   (main late_cfg (txt "it") true [txt "data/a.json"; txt "data/b.json"]
                      late_world).1)].
Proof.
  apply (main_counts_every_file late_cfg true [txt "data/a.json"; txt "data/b.json"]
           late_world).
  - discriminate.
  - repeat constructor.
  - intros n. reflexivity.
  - intros p Hp. unfold late_world in Hp. cbn [cache_files] in Hp.
    apply lookup_singleton_Some in Hp as [_ Hp]. discriminate.
Defined.

Lemma generated_files_are_only_counted_witness :
  (main_loop (stub answers false) (txt "it") true
     [txt "data/generated/bookref.json"; txt "data/generated/gendata.json"] late_world).2
    = Ok tt /\
  calls (main_loop (stub answers false) (txt "it") true
     [txt "data/generated/bookref.json"; txt "data/generated/gendata.json"] late_world).1
    = calls late_world /\
  ioops (main_loop (stub answers false) (txt "it") true
     [txt "data/generated/bookref.json"; txt "data/generated/gendata.json"] late_world).1
    = ioops late_world /\
  cache_files (main_loop (stub answers false) (txt "it") true
     [txt "data/generated/bookref.json"; txt "data/generated/gendata.json"] late_world).1
    = cache_files late_world /\
  output_files (main_loop (stub answers false) (txt "it") true
     [txt "data/generated/bookref.json"; txt "data/generated/gendata.json"] late_world).1
    = output_files late_world /\
  todoCharCounter (main_loop (stub answers false) (txt "it") true
     [txt "data/generated/bookref.json"; txt "data/generated/gendata.json"] late_world).1
    = todoCharCounter late_world /\
  currentFileIndex (main_loop (stub answers false) (txt "it") true
     [txt "data/generated/bookref.json"; txt "data/generated/gendata.json"] late_world).1
    = currentFileIndex late_world + 2.
Proof.
  apply (generated_files_are_only_counted (stub answers false) (txt "it") true
           [txt "data/generated/bookref.json"; txt "data/generated/gendata.json"] late_world).
  repeat constructor.
Defined.

(** ** What stops the run *)

Section Stops.
Context (cfg : Config).

Lemma no_slash_not_generated (file : text) :
  dirname_empty file = true -> startswith (txt "data/generated") file = false.
Proof.
  intros H. destruct (startswith (txt "data/generated") file) eqn:E; [|done].
  apply startswith_inv in E as [r ->].
  unfold dirname_empty in H. rewrite existsb_app in H. by vm_compute in H.
Qed.

(** A file name without a directory part stops the run. Its cache path is
    the name itself, so the first [os.makedirs] is given an empty directory
    name and raises: [translate_file] has by then read, translated and
    written nothing, and the main loop, which has counted the file and
    printed its header, ends there, with the files after it untouched and
    no summary. *)
Theorem bare_file_name_stops_the_run (language file : text) (writeJSON : bool)
    (files : list text) (w : World) :
  dirname_empty file = true ->
  translate_file cfg language file writeJSON w = (w, Raise FileNotFoundError) /\
  main_loop cfg language writeJSON (file :: files) w
  = (log (EvFileHeader (S (currentFileIndex w)) file)
       (set_currentFileIndex (S (currentFileIndex w)) w),
     Raise FileNotFoundError).
Proof.
  intros H.
  assert (forall w1, translate_file cfg language file writeJSON w1
                     = (w1, Raise FileNotFoundError)) as Hfile.
  { intros w1. unfold translate_file, makedirs_dirname.
    pose proof (no_slash_no_data file H) as Hno.
    unfold replace_all. rewrite replace_all_from_absent by done. by rewrite H. }
  split; [apply Hfile|].
  cbn [main_loop]. rewrite (no_slash_not_generated file H). by rewrite Hfile.
Qed.

(** A cache file that exists but cannot be read stops [translate_file]:
    only a JSON syntax error is caught in the constructor, so the error
    leaves it before the document is opened. Nothing has been translated
    or written; only the two directories have been made. *)
Theorem unreadable_cache_stops_translate_file (file : text) (writeJSON : bool) (w : World) :
  startswith (txt "data/") file = true ->
  fs_fault cfg (fsops w) = IoOk -> fs_fault cfg (S (fsops w)) = IoOk ->
  cache_files w !! cache_path (txt "it") file = Some CacheUnreadable ->
  translate_file cfg (txt "it") file writeJSON w
  = (bump_fsops (bump_fsops w), Raise CacheReadError).
Proof.
  intros Hdata F1 F2 Hc.
  destruct (dirname_of_data_file (txt "it") file Hdata) as [D1 D2].
  unfold cache_path in D1, Hc. unfold output_path in D2.
  unfold translate_file, makedirs_dirname.
  rewrite D1, F1, D2. cbn [fsops bump_fsops]. rewrite F2.
  unfold TranslatorService_init.
  change (assoc (txt "it") supported_languages) with (Some (txt "it")). cbv iota beta.
  cbn [cache_files bump_fsops]. by rewrite Hc.
Qed.

End Stops.

Lemma bare_file_name_stops_the_run_witness :
  translate_file (stub answers false) (txt "it") (txt "spells.json") true late_world
  = (late_world, Raise FileNotFoundError) /\
  main_loop (stub answers false) (txt "it") true [txt "spells.json"; txt "data/b.json"]
    late_world
  = (log (EvFileHeader (S (currentFileIndex late_world)) (txt "spells.json"))
       (set_currentFileIndex (S (currentFileIndex late_world)) late_world),
     Raise FileNotFoundError).
Proof.
  apply (bare_file_name_stops_the_run (stub answers false) (txt "it") (txt "spells.json")
           true [txt "data/b.json"] late_world).
  by vm_compute.
Defined.

Lemma unreadable_cache_stops_translate_file_witness :
  translate_file (stub answers false) (txt "it") (txt "data/b.json") true
    (set_cache_files {[ txt "translation/cache/it/b.json" := CacheUnreadable ]} late_world)
  = (bump_fsops (bump_fsops
       (set_cache_files {[ txt "translation/cache/it/b.json" := CacheUnreadable ]}
          late_world)),
     Raise CacheReadError).
Proof.
  apply (unreadable_cache_stops_translate_file (stub answers false) (txt "data/b.json") true
           (set_cache_files {[ txt "translation/cache/it/b.json" := CacheUnreadable ]}
              late_world)).
  - by vm_compute.
  - reflexivity.
  - reflexivity.
  - by vm_compute.
Defined.
